(** * Task manager back end (server.js): a shallow embedding

    The Express routes of [server.js] are embedded as functions over an
    explicit world (the [tasks] collection, the ObjectId generator and the
    clock), with the request body kept as untyped JSON values, as
    [express.json()] delivers it.  Mongoose and MongoDB are outside the
    repository: their operations are embedded as far as the routes use them
    (schema casting, setters and validators, the two [pre] hooks, find,
    findById, findByIdAndUpdate, findByIdAndDelete, countDocuments and the
    [$group] stage), each next to the schema line or call that triggers it. *)

From Stdlib Require Import QArith Ascii String.
From stdpp Require Import gmap strings list fin_maps sorting.

Set Warnings "-register-all,-clear-no-such-hyp".
Local Open Scope nat_scope.

(** ** JavaScript strings

    A JavaScript string is a sequence of UTF-16 code units; [length] counts
    code units, as [String.prototype.length] and Mongoose's [maxlength]
    validator do. *)

Abbreviation jsstring := (list N).

(** A string literal of the source (all of them are ASCII). *)
Definition str (s : string) : jsstring :=
  N_of_ascii <$> list_ascii_of_string s.

(** White space and line terminators of ECMAScript, the characters
    [String.prototype.trim] strips: TAB, LF, VT, FF, CR, SP, NBSP, the
    Unicode space separators, LS, PS and the byte order mark. *)
Definition is_whitespace (c : N) : bool :=
  bool_decide (c ∈ [9; 10; 11; 12; 13; 32; 160; 5760; 8232; 8233; 8239;
                    8287; 12288; 65279]%N)
  || ((8192 <=? c)%N && (c <=? 8202)%N).

Fixpoint trimStart (s : jsstring) : jsstring :=
  match s with
  | [] => []
  | c :: s' => if is_whitespace c then trimStart s' else s
  end.

Fixpoint trimEnd (s : jsstring) : jsstring :=
  match s with
  | [] => []
  | c :: s' =>
      match trimEnd s' with
      | [] => if is_whitespace c then [] else [c]
      | r => c :: r
      end
  end.

(** [String.prototype.trim] *)
Definition trim (s : jsstring) : jsstring := trimEnd (trimStart s).

(** ** JavaScript values

    What [express.json()] / [express.urlencoded()] can put in a property of
    [req.body]; [JUndefined] stands for a property that is absent.  A number
    is kept as a rational: the routes only test numbers for truthiness. *)

Inductive JsVal : Type :=
| JUndefined
| JNull
| JBool (b : bool)
| JNum (q : Q)
| JStr (s : jsstring)
| JArr (items : list JsVal)
| JObj (props : list (jsstring * JsVal)).

(** ToBoolean: what [!v], [v && _], [v || _] and [v ? _ : _] test. *)
Definition truthy (v : JsVal) : bool :=
  match v with
  | JUndefined | JNull => false
  | JBool b => b
  | JNum q => negb (Qeq_bool q 0)
  | JStr s => negb (bool_decide (s = []))
  | JArr _ | JObj _ => true
  end.

(** [a || b] *)
Definition js_or (a b : JsVal) : JsVal := if truthy a then a else b.

(** [arr.includes(v)] for an array of string literals: SameValueZero never
    identifies a string with a value of another type. *)
Definition includes (arr : list jsstring) (v : JsVal) : bool :=
  match v with
  | JStr s => bool_decide (s ∈ arr)
  | _ => false
  end.

(** ** Exceptions and the error-handling middleware *)

Inductive Exn : Type :=
| TypeError
| ValidationError (errors : list string)
| CastError
| MongoServerError.

(** [v.trim()]: only a string has a callable [trim]; on any other truthy
    JSON value the property is missing or not a function, and the call
    throws a TypeError. *)
Definition call_trim (v : JsVal) : Exn + jsstring :=
  match v with
  | JStr s => inr (trim s)
  | _ => inl TypeError
  end.

(** ** Documents, responses and the world *)

Abbreviation ObjectId := N.

(** A stored document of the [tasks] collection; dates are milliseconds
    since the epoch, as [Date.now()] returns them. *)
Record Task : Type := {
  _id : ObjectId;
  title : jsstring;
  description : jsstring;
  priority : jsstring;
  status : jsstring;
  createdAt : Z;
  updatedAt : Z
}.

(** The four properties the routes read from [req.body], and the object
    literals they pass to [new Task] and [findByIdAndUpdate]. *)
Record TaskObject : Type := {
  o_title : JsVal;
  o_description : JsVal;
  o_priority : JsVal;
  o_status : JsVal
}.

(** The [data] of the statistics route; [by_priority] is its [priority]
    object. *)
Record StatsData : Type := {
  total : nat;
  completed : nat;
  pending : nat;
  inProgress : nat;
  by_priority : gmap jsstring nat
}.

(** The bodies passed to [res.json]: [{ error }] from the validation
    middleware, [{ success: false, error, details? }] from the routes and
    the error-handling middleware, and the three shapes of
    [{ success: true, data, ... }]. *)
Inductive Json : Type :=
| ErrorJson (error : string)
| FailureJson (error : string) (details : option (list string))
| TaskJson (data : Task) (message : option string)
| ListJson (data : list Task) (count : nat)
| StatsJson (data : StatsData).

Record Response : Type := { statusCode : nat; json : Json }.

(** The failure kinds of the specification, as the responses that carry
    them. *)
Definition MissingField_title : Response :=
  {| statusCode := 400;
     json := ErrorJson "Title is required and cannot be empty" |}.
Definition InvalidEnum_priority : Response :=
  {| statusCode := 400;
     json := ErrorJson "Priority must be low, medium, or high" |}.
Definition InvalidEnum_status : Response :=
  {| statusCode := 400;
     json := ErrorJson "Status must be pending, in-progress, or completed" |}.
Definition NotFound : Response :=
  {| statusCode := 404; json := FailureJson "Task not found" None |}.

(** The error-handling middleware ([app.use((err, req, res, next) => ...)]).
    [err.errors] has one error per failing path; [details] holds one entry
    for each of them, the name of the path, which stands for the message
    Mongoose words for that error.  Neither the wording of the messages
    nor the order in which Mongoose lists them is modelled. *)
Definition errorHandler (err : Exn) : Response :=
  match err with
  | ValidationError errors =>
      {| statusCode := 400;
         json := FailureJson "Validation Error" (Some errors) |}
  | CastError =>
      {| statusCode := 400; json := FailureJson "Invalid ID format" None |}
  | _ =>
      {| statusCode := 500; json := FailureJson "Internal Server Error" None |}
  end.

(** The world a request runs in: the collection in insertion order, the
    next ObjectId the driver generates, and the clock, given by its
    successive readings ([clock w i] is what the [i]-th call of
    [Date.now()] returns) and the number of readings taken so far. *)
Record World : Type := {
  tasks : list Task;
  next_ObjectId : ObjectId;
  clock : nat → Z;
  ticks : nat
}.

(** Computations that read and write the world and may throw. *)
Definition M (A : Type) : Type := World → (Exn + A) * World.

#[global] Instance M_ret : MRet M := λ A a w, (inr a, w).
#[global] Instance M_bind : MBind M := λ A B f m w,
  match m w with
  | (inl e, w') => (inl e, w')
  | (inr a, w') => f a w'
  end.

Definition throw {A : Type} (e : Exn) : M A := λ w, (inl e, w).

(** [Date.now()] *)
Definition Date_now : M Z := λ w,
  (inr (clock w (ticks w)),
   {| tasks := tasks w; next_ObjectId := next_ObjectId w;
      clock := clock w; ticks := S (ticks w) |}).

(** [new ObjectId()] *)
Definition new_ObjectId : M ObjectId := λ w,
  (inr (next_ObjectId w),
   {| tasks := tasks w; next_ObjectId := N.succ (next_ObjectId w);
      clock := clock w; ticks := ticks w |}).

(** What a middleware does with a request. *)
Inductive Middleware : Type :=
| Respond (r : Response)
| Next
| Throw (e : Exn).

(** ** Validation middleware ([validateTask]) *)

Definition priorities : list jsstring := [str "low"; str "medium"; str "high"].
Definition statuses : list jsstring :=
  [str "pending"; str "in-progress"; str "completed"].

Definition validateTask (body : TaskObject) : Middleware :=
  let title := o_title body in
  let priority := o_priority body in
  let status := o_status body in
  if negb (truthy title) then Respond MissingField_title
  else
    match call_trim title with
    | inl e => Throw e
    | inr trimmed =>
        if length trimmed =? 0 then Respond MissingField_title
        else if truthy priority && negb (includes priorities priority)
        then Respond InvalidEnum_priority
        else if truthy status && negb (includes statuses status)
        then Respond InvalidEnum_status
        else Next
    end.

(** ** The schema ([taskSchema])

    The four string paths with their options.  The [default]s of
    [priority] and [status] are not listed: both routes always pass a
    truthy value for them ([priority || 'medium'], [status || 'pending']). *)

Record SchemaString : Type := {
  path : string;
  required : bool;
  trim_setter : bool;
  maxlength : option nat;
  enum : option (list jsstring)
}.

Definition title_path : SchemaString :=
  {| path := "title"; required := true; trim_setter := true;
     maxlength := Some 200; enum := None |}.
Definition description_path : SchemaString :=
  {| path := "description"; required := false; trim_setter := true;
     maxlength := Some 1000; enum := None |}.
Definition priority_path : SchemaString :=
  {| path := "priority"; required := false; trim_setter := false;
     maxlength := None; enum := Some priorities |}.
Definition status_path : SchemaString :=
  {| path := "status"; required := false; trim_setter := false;
     maxlength := None; enum := Some statuses |}.

(** The validators of a path, on a value already cast and set. *)
Definition validators (p : SchemaString) (s : jsstring) : bool :=
  (negb (required p) || negb (bool_decide (s = [])))
  && match maxlength p with Some n => length s <=? n | None => true end
  && match enum p with Some vs => bool_decide (s ∈ vs) | None => true end.

(** Cast, setter and validators of one path: the stored value, or [None]
    when the path is reported in the ValidationError.  Only strings are
    cast: the routes pass nothing else (see [create_object_strings]), and
    every other value is reported as invalid here. *)
Definition apply_path (p : SchemaString) (v : JsVal) : option jsstring :=
  match v with
  | JStr s =>
      let s' := if trim_setter p then trim s else s in
      if validators p s' then Some s' else None
  | _ => None
  end.

Definition path_errors (p : SchemaString) (v : JsVal) : list string :=
  match apply_path p v with Some _ => [] | None => [path p] end.

(** The paths that fail validation (the keys of [err.errors]), listed
    here in schema order. *)
Definition validation_errors (o : TaskObject) : list string :=
  path_errors title_path (o_title o)
  ++ path_errors description_path (o_description o)
  ++ path_errors priority_path (o_priority o)
  ++ path_errors status_path (o_status o).

(** ** The model ([Task = mongoose.model('Task', taskSchema)]) *)

(** A document built by [new Task(obj)] and not saved yet: the [_id] and
    the two [Date.now] defaults are taken at construction, one clock
    reading per default. *)
Record Document : Type := {
  doc_id : ObjectId;
  doc_object : TaskObject;
  doc_createdAt : Z;
  doc_updatedAt : Z
}.

Definition new_Task (obj : TaskObject) : M Document :=
  id ← new_ObjectId;
  created ← Date_now;
  updated ← Date_now;
  mret {| doc_id := id; doc_object := obj;
          doc_createdAt := created; doc_updatedAt := updated |}.

Definition set_tasks (l : list Task) (w : World) : World :=
  {| tasks := l; next_ObjectId := next_ObjectId w;
     clock := clock w; ticks := ticks w |}.

(** The unique index on [_id] rejects a second document with the same id;
    the driver's error is none of those [errorHandler] names. *)
Definition insertOne (t : Task) : M Task := λ w,
  if bool_decide (_id t ∈ (_id <$> tasks w)) then (inl MongoServerError, w)
  else (inr t, set_tasks (tasks w ++ [t]) w).

(** [task.save()]: validation runs first; then the [pre('save')] hook
    overwrites [updatedAt] with a new clock reading; then the insert. *)
Definition save (d : Document) : M Task :=
  let o := doc_object d in
  match apply_path title_path (o_title o),
        apply_path description_path (o_description o),
        apply_path priority_path (o_priority o),
        apply_path status_path (o_status o) with
  | Some t, Some de, Some p, Some s =>
      now ← Date_now;
      insertOne {| _id := doc_id d; title := t; description := de;
                   priority := p; status := s;
                   createdAt := doc_createdAt d; updatedAt := now |}
  | _, _, _, _ => throw (ValidationError (validation_errors o))
  end.

Definition has_id (id : ObjectId) (t : Task) : bool := bool_decide (_id t = id).

(** [Task.findById(id)] *)
Definition findById (id : ObjectId) : M (option Task) := λ w,
  (inr (List.find (has_id id) (tasks w)), w).

Fixpoint replaceOne (id : ObjectId) (t' : Task) (l : list Task) : list Task :=
  match l with
  | [] => []
  | t :: l' => if has_id id t then t' :: l' else t :: replaceOne id t' l'
  end.

Fixpoint deleteOne (id : ObjectId) (l : list Task) : list Task :=
  match l with
  | [] => []
  | t :: l' => if has_id id t then l' else t :: deleteOne id l'
  end.

(** The [findAndModify] command: [$set]s the paths of the first document
    with that id and, with [new: true], returns the document as updated,
    or null when there is none. *)
Definition updateOne (id : ObjectId) (set : Task → Task) : M (option Task) :=
  λ w,
  match List.find (has_id id) (tasks w) with
  | None => (inr None, w)
  | Some old =>
      (inr (Some (set old)), set_tasks (replaceOne id (set old) (tasks w)) w)
  end.

(** [Task.findByIdAndUpdate(id, update, { new: true, runValidators: true })],
    for an id that is an ObjectId (see [findByIdAndUpdate_param] for the
    parameter of the route): the [pre('findOneAndUpdate')] hook adds
    [updatedAt: Date.now()] to the update; the update validators run before
    the command is sent; [_id] and [createdAt] are not among the paths set.
    The ValidationError holds the failing paths; the order in which the
    update validators report them is not modelled. *)
Definition findByIdAndUpdate (id : ObjectId) (update : TaskObject)
  : M (option Task) :=
  now ← Date_now;
  match apply_path title_path (o_title update),
        apply_path description_path (o_description update),
        apply_path priority_path (o_priority update),
        apply_path status_path (o_status update) with
  | Some t, Some de, Some p, Some s =>
      updateOne id (λ old,
        {| _id := _id old; title := t; description := de;
           priority := p; status := s;
           createdAt := createdAt old; updatedAt := now |})
  | _, _, _, _ => throw (ValidationError (validation_errors update))
  end.

(** [Task.findByIdAndDelete(id)] *)
Definition findByIdAndDelete (id : ObjectId) : M (option Task) := λ w,
  match List.find (has_id id) (tasks w) with
  | None => (inr None, w)
  | Some t => (inr (Some t), set_tasks (deleteOne id (tasks w)) w)
  end.

(** A filter object with at most the keys [status] and [priority]. *)
Record Filter : Type := {
  filter_status : option jsstring;
  filter_priority : option jsstring
}.

Definition matches (f : Filter) (t : Task) : bool :=
  match filter_status f with
  | Some s => bool_decide (status t = s)
  | None => true
  end
  && match filter_priority f with
     | Some p => bool_decide (priority t = p)
     | None => true
     end.

(** [Task.find(filter)], in insertion order *)
Definition find (f : Filter) : M (list Task) := λ w,
  (inr (List.filter (matches f) (tasks w)), w).

(** [Task.countDocuments(filter)] *)
Definition countDocuments (f : Filter) : M nat := λ w,
  (inr (length (List.filter (matches f) (tasks w))), w).

(** The [$group] stage [{ _id: '$priority', count: { $sum: 1 } }]: one
    item per distinct priority, here in order of first occurrence. *)
Fixpoint bump (k : jsstring) (groups : list (jsstring * nat))
  : list (jsstring * nat) :=
  match groups with
  | [] => [(k, 1)]
  | (k', n) :: groups' =>
      if bool_decide (k' = k) then (k', S n) :: groups'
      else (k', n) :: bump k groups'
  end.

Definition group_from (groups : list (jsstring * nat)) (l : list Task)
  : list (jsstring * nat) :=
  foldl (λ groups t, bump (priority t) groups) groups l.

Definition group_by_priority (l : list Task) : list (jsstring * nat) :=
  group_from [] l.

Definition aggregate_group_priority : M (list (jsstring * nat)) := λ w,
  (inr (group_by_priority (tasks w)), w).

(** ** Routes *)

Definition Handler : Type := World → Response * World.

(** [asyncHandler(fn)]: a rejection goes to the error-handling middleware. *)
Definition asyncHandler (fn : M Response) : Handler := λ w,
  match fn w with
  | (inl err, w') => (errorHandler err, w')
  | (inr res, w') => (res, w')
  end.

(** [app.METHOD(path, middleware, handler)]: the handler runs only when the
    middleware calls [next()]; an exception thrown by the middleware goes
    to the error-handling middleware. *)
Definition use (mw : Middleware) (h : Handler) : Handler := λ w,
  match mw with
  | Respond r => (r, w)
  | Throw err => (errorHandler err, w)
  | Next => h w
  end.

Definition lift {A : Type} (r : Exn + A) : M A := λ w, (r, w).

Definition ok (data : Task) (message : option string) : Response :=
  {| statusCode := 200; json := TaskJson data message |}.

(** The object literal both write routes build from [req.body]. *)
Definition task_object (body : TaskObject) : M TaskObject :=
  title ← lift (call_trim (o_title body));
  description ← (if truthy (o_description body)
                 then lift (call_trim (o_description body))
                 else mret (str ""));
  mret {| o_title := JStr title;
          o_description := JStr description;
          o_priority := js_or (o_priority body) (JStr (str "medium"));
          o_status := js_or (o_status body) (JStr (str "pending")) |}.

(** The three routes with an [:id], first as they run once Mongoose has
    cast [req.params.id] to an ObjectId; the routes on the parameter as it
    arrives, with the cast and its CastError, follow below
    ([get_api_tasks_param], [put_api_tasks_param],
    [delete_api_tasks_param]). *)

(** GET /api/tasks/:id *)
Definition get_api_tasks_id (id : ObjectId) : Handler :=
  asyncHandler (
    task ← findById id;
    match task with
    | None => mret NotFound
    | Some task => mret (ok task None)
    end).

(** POST /api/tasks *)
Definition post_api_tasks (body : TaskObject) : Handler :=
  use (validateTask body) (asyncHandler (
    obj ← task_object body;
    task ← new_Task obj;
    savedTask ← save task;
    mret {| statusCode := 201;
            json := TaskJson savedTask (Some "Task created successfully") |})).

(** PUT /api/tasks/:id *)
Definition put_api_tasks_id (id : ObjectId) (body : TaskObject) : Handler :=
  use (validateTask body) (asyncHandler (
    updateData ← task_object body;
    task ← findByIdAndUpdate id updateData;
    match task with
    | None => mret NotFound
    | Some task => mret (ok task (Some "Task updated successfully"))
    end)).

(** DELETE /api/tasks/:id *)
Definition delete_api_tasks_id (id : ObjectId) : Handler :=
  asyncHandler (
    task ← findByIdAndDelete id;
    match task with
    | None => mret NotFound
    | Some task => mret (ok task (Some "Task deleted successfully"))
    end).

(** [acc[key] = value] on a plain object: assigning a number to
    [__proto__] stores no property. *)
Definition js_set (key : jsstring) (value : nat) (acc : gmap jsstring nat)
  : gmap jsstring nat :=
  if bool_decide (key = str "__proto__") then acc else <[key := value]> acc.

(** [priorityStats.reduce((acc, item) => { acc[item._id] = item.count;
    return acc; }, {})] *)
Definition reduce_priority (priorityStats : list (jsstring * nat))
  : gmap jsstring nat :=
  foldl (λ acc item, js_set item.1 item.2 acc) ∅ priorityStats.

Definition no_filter : Filter :=
  {| filter_status := None; filter_priority := None |}.
Definition status_is (s : jsstring) : Filter :=
  {| filter_status := Some s; filter_priority := None |}.

(** GET /api/stats.  The five queries run one after the other on the same
    collection: requests are served one at a time here. *)
Definition get_api_stats : Handler :=
  asyncHandler (
    totalTasks ← countDocuments no_filter;
    completedTasks ← countDocuments (status_is (str "completed"));
    pendingTasks ← countDocuments (status_is (str "pending"));
    inProgressTasks ← countDocuments (status_is (str "in-progress"));
    priorityStats ← aggregate_group_priority;
    mret {| statusCode := 200;
            json := StatsJson
              {| total := totalTasks;
                 completed := completedTasks;
                 pending := pendingTasks;
                 inProgress := inProgressTasks;
                 by_priority := reduce_priority priorityStats |} |}).

(** The four parameters the list route reads from [req.query], each absent
    or a string ([?status=] gives the empty string).  A parameter repeated
    or written with brackets, which the query parser turns into an array or
    an object, is not covered. *)
Record Query : Type := {
  q_status : option jsstring;
  q_priority : option jsstring;
  q_sortBy : option jsstring;
  q_order : option jsstring
}.

(** [v && v !== 'all'] on a query parameter *)
Definition constrains (v : option jsstring) : option jsstring :=
  match v with
  | Some s =>
      if negb (bool_decide (s = [])) && negb (bool_decide (s = str "all"))
      then Some s else None
  | None => None
  end.

Definition build_filter (q : Query) : Filter :=
  {| filter_status := constrains (q_status q);
     filter_priority := constrains (q_priority q) |}.

(** [order === 'asc' ? 1 : -1], after the default [order = 'desc'] *)
Definition sort_direction (order : option jsstring) : Z :=
  let order := default (str "desc") order in
  if bool_decide (order = str "asc") then 1%Z else (-1)%Z.

Section ListRoute.

(** [cursor.sort({ [sortBy]: direction })] is the store's: it orders the
    documents found by the field named, ascending for 1 and descending for
    -1, or fails on a name it cannot sort by. *)
Variable store_sort : jsstring → Z → list Task → Exn + list Task.

(** GET /api/tasks *)
Definition get_api_tasks (q : Query) : Handler :=
  asyncHandler (
    let sortBy := default (str "createdAt") (q_sortBy q) in
    let filter := build_filter q in
    found ← find filter;
    tasks ← lift (store_sort sortBy (sort_direction (q_order q)) found);
    mret {| statusCode := 200; json := ListJson tasks (length tasks) |}).

End ListRoute.

(** ** The application

    The requests the routes above answer, and a run of the server on a
    sequence of them, one after the other. *)

Inductive Request : Type :=
| GET_tasks (query : Query)
| GET_task (id : ObjectId)
| POST_task (body : TaskObject)
| PUT_task (id : ObjectId) (body : TaskObject)
| DELETE_task (id : ObjectId)
| GET_stats.

Section Application.

Variable store_sort : jsstring → Z → list Task → Exn + list Task.

Definition app (req : Request) : Handler :=
  match req with
  | GET_tasks query => get_api_tasks store_sort query
  | GET_task id => get_api_tasks_id id
  | POST_task body => post_api_tasks body
  | PUT_task id body => put_api_tasks_id id body
  | DELETE_task id => delete_api_tasks_id id
  | GET_stats => get_api_stats
  end.

Fixpoint serve (reqs : list Request) (w : World) : World :=
  match reqs with
  | [] => w
  | req :: reqs' => serve reqs' (app req w).2
  end.

End Application.

(** ** A store ordering

    One ordering a store can implement, used to run the list route: the
    schema's paths are compared by value (strings by code unit, dates and
    ids numerically), any other name is a field no document has, so that
    all documents tie; ties come in no particular order, as in MongoDB. *)

Inductive SortKey : Type :=
| KMissing
| KString (s : jsstring)
| KObjectId (n : ObjectId)
| KDate (z : Z).

Definition field_of (name : jsstring) (t : Task) : SortKey :=
  if bool_decide (name = str "_id") then KObjectId (_id t)
  else if bool_decide (name = str "title") then KString (title t)
  else if bool_decide (name = str "description") then KString (description t)
  else if bool_decide (name = str "priority") then KString (priority t)
  else if bool_decide (name = str "status") then KString (status t)
  else if bool_decide (name = str "createdAt") then KDate (createdAt t)
  else if bool_decide (name = str "updatedAt") then KDate (updatedAt t)
  else KMissing.

Fixpoint lex_leb (a b : jsstring) : bool :=
  match a, b with
  | [], _ => true
  | _ :: _, [] => false
  | x :: a', y :: b' => (x <? y)%N || ((x =? y)%N && lex_leb a' b')
  end.

Definition key_leb (a b : SortKey) : bool :=
  match a, b with
  | KMissing, _ => true
  | _, KMissing => false
  | KString x, KString y => lex_leb x y
  | KString _, _ => true
  | _, KString _ => false
  | KObjectId x, KObjectId y => (x <=? y)%N
  | KObjectId _, _ => true
  | _, KObjectId _ => false
  | KDate x, KDate y => (x <=? y)%Z
  end.

Definition sorts_beforeb (name : jsstring) (direction : Z) (a b : Task) : bool :=
  if bool_decide (direction = 1%Z)
  then key_leb (field_of name a) (field_of name b)
  else key_leb (field_of name b) (field_of name a).

Definition sorts_before (name : jsstring) (direction : Z) (a b : Task) : Prop :=
  sorts_beforeb name direction a b.

#[global] Instance sorts_before_dec name direction a b :
  Decision (sorts_before name direction a b) :=
  Is_true_dec (sorts_beforeb name direction a b).

Definition reference_sort (name : jsstring) (direction : Z) (l : list Task)
  : Exn + list Task :=
  inr (merge_sort (sorts_before name direction) l).

(** ** Well-formed worlds and valid payloads *)

(** The field constraints of the data model. *)
Definition schema_ok (t : Task) : Prop :=
  title t ≠ [] ∧ length (title t) ≤ 200 ∧ length (description t) ≤ 1000
  ∧ priority t ∈ priorities ∧ status t ∈ statuses.

(** What every world the server reaches from an empty collection
    satisfies (see [wf_world_reachable]): ids are unique and
    older than the generator, the clock does not run backwards, and every
    stored document meets the schema and carries time stamps read from the
    clock in the past. *)
Record wf_world (w : World) : Prop := {
  ids_unique : NoDup (_id <$> tasks w);
  ids_generated : ∀ t, t ∈ tasks w → (_id t < next_ObjectId w)%N;
  clock_monotone : ∀ i j, i ≤ j → (clock w i ≤ clock w j)%Z;
  docs_valid : ∀ t, t ∈ tasks w → schema_ok t;
  stamps_ordered : ∀ t, t ∈ tasks w → (createdAt t ≤ updatedAt t)%Z;
  stamps_past : ∀ t, t ∈ tasks w → (updatedAt t ≤ clock w (ticks w))%Z
}.

(** A payload that passes the validation middleware and the schema: a
    title that is a string, not blank and at most 200 code units once
    trimmed; a description that is omitted (or falsy) or a string of at
    most 1000 code units once trimmed; priority and status omitted (or
    falsy) or one of the enumerated strings. *)
Definition valid_title (v : JsVal) : bool :=
  match v with
  | JStr s => negb (bool_decide (trim s = [])) && (length (trim s) <=? 200)
  | _ => false
  end.

Definition valid_description (v : JsVal) : bool :=
  negb (truthy v)
  || match v with JStr s => length (trim s) <=? 1000 | _ => false end.

Definition valid_enum (values : list jsstring) (v : JsVal) : bool :=
  negb (truthy v) || includes values v.

Definition valid_payload (body : TaskObject) : bool :=
  valid_title (o_title body)
  && valid_description (o_description body)
  && valid_enum priorities (o_priority body)
  && valid_enum statuses (o_status body).

(** The fields a valid payload asks to store. *)
Definition title_of (body : TaskObject) : jsstring :=
  match o_title body with JStr s => trim s | _ => [] end.
Definition description_of (body : TaskObject) : jsstring :=
  match o_description body with JStr s => trim s | _ => [] end.
Definition priority_of (body : TaskObject) : jsstring :=
  match o_priority body with
  | JStr s => if bool_decide (s = []) then str "medium" else s
  | _ => str "medium"
  end.
Definition status_of (body : TaskObject) : jsstring :=
  match o_status body with
  | JStr s => if bool_decide (s = []) then str "pending" else s
  | _ => str "pending"
  end.

(** ** The validation order as the specification words it

    Title absent or empty after trimming; otherwise priority supplied and
    outside its enumeration; otherwise status supplied and outside its
    enumeration; otherwise pass.  A property is supplied when it is present
    in the payload, whatever its value. *)

Definition supplied (v : JsVal) : bool :=
  match v with JUndefined => false | _ => true end.

Definition absent_or_blank (v : JsVal) : bool :=
  match v with
  | JUndefined => true
  | JStr s => bool_decide (trim s = [])
  | _ => false
  end.

Definition validation_as_specified (body : TaskObject) : Middleware :=
  if absent_or_blank (o_title body) then Respond MissingField_title
  else if supplied (o_priority body)
          && negb (includes priorities (o_priority body))
  then Respond InvalidEnum_priority
  else if supplied (o_status body) && negb (includes statuses (o_status body))
  then Respond InvalidEnum_status
  else Next.

(** The list filter as the specification words it: a parameter constrains
    unless it is absent or the value "all". *)
Definition constrains_as_specified (v : option jsstring) : option jsstring :=
  match v with
  | Some s => if bool_decide (s = str "all") then None else Some s
  | None => None
  end.

Definition filter_as_specified (q : Query) : Filter :=
  {| filter_status := constrains_as_specified (q_status q);
     filter_priority := constrains_as_specified (q_priority q) |}.

(** ** Sample data *)

Definition titled (t : string) : TaskObject :=
  {| o_title := JStr (str t); o_description := JUndefined;
     o_priority := JUndefined; o_status := JUndefined |}.

(** A clock that advances by one millisecond at every reading. *)
Definition ticking_clock (i : nat) : Z := Z.of_nat i.

(** A clock that stands still. *)
Definition frozen_clock (i : nat) : Z := 1000%Z.

Definition empty_world (clock : nat → Z) : World :=
  {| tasks := []; next_ObjectId := 0%N; clock := clock; ticks := 0 |}.

Definition sample_task (id : ObjectId) (p s : string) : Task :=
  {| _id := id; title := str "Write spec"; description := [];
     priority := str p; status := str s;
     createdAt := 1000%Z; updatedAt := 1000%Z |}.

Definition sample_world : World :=
  {| tasks := [sample_task 0 "high" "completed";
               sample_task 1 "medium" "in-progress";
               sample_task 2 "high" "pending"];
     next_ObjectId := 3%N; clock := frozen_clock; ticks := 0 |}.

Definition no_query : Query :=
  {| q_status := None; q_priority := None;
     q_sortBy := None; q_order := None |}.

(** ** Vocabulary of the statements *)

(** The title is a string with something left after trimming. *)
Definition nonblank (v : JsVal) : Prop := ∃ s, v = JStr s ∧ trim s ≠ [].

(** The value is truthy and not one of the enumerated strings. *)
Definition outside (values : list jsstring) (v : JsVal) : Prop :=
  truthy v = true ∧ includes values v = false.

(** The object literal the write routes build from a valid payload. *)
Definition object_of (body : TaskObject) : TaskObject :=
  {| o_title := JStr (title_of body);
     o_description := JStr (description_of body);
     o_priority := JStr (priority_of body);
     o_status := JStr (status_of body) |}.

(** The document a successful create stores in world [w]: the id is the
    generator's next one, [createdAt] is the clock reading taken for its
    default, [updatedAt] the reading the [pre('save')] hook takes, two
    readings later. *)
Definition created (body : TaskObject) (w : World) : Task :=
  {| _id := next_ObjectId w;
     title := title_of body;
     description := description_of body;
     priority := priority_of body;
     status := status_of body;
     createdAt := clock w (ticks w);
     updatedAt := clock w (2 + ticks w) |}.

(** The document a successful update leaves in place of [old]. *)
Definition updated (body : TaskObject) (w : World) (old : Task) : Task :=
  {| _id := _id old;
     title := title_of body;
     description := description_of body;
     priority := priority_of body;
     status := status_of body;
     createdAt := createdAt old;
     updatedAt := clock w (ticks w) |}.

Definition tick (n : nat) (w : World) : World :=
  {| tasks := tasks w; next_ObjectId := next_ObjectId w;
     clock := clock w; ticks := n + ticks w |}.

Definition created_response (t : Task) : Response :=
  {| statusCode := 201;
     json := TaskJson t (Some "Task created successfully") |}.

(** The world after a request that left the collection alone: the same
    clock, possibly read further, and a generator that did not go back. *)
Definition advances (w w' : World) : Prop :=
  tasks w' = tasks w ∧ clock w' = clock w ∧ ticks w ≤ ticks w'
  ∧ (next_ObjectId w ≤ next_ObjectId w')%N.

(** The statistics a client reads in world [w]. *)
Definition stats (w : World) : option StatsData :=
  match json (get_api_stats w).1 with
  | StatsJson data => Some data
  | _ => None
  end.

(** Number of documents with a given status, or priority. *)
Definition count_status (s : jsstring) (l : list Task) : nat :=
  length (List.filter (λ t, bool_decide (status t = s)) l).
Definition count_priority (p : jsstring) (l : list Task) : nat :=
  length (List.filter (λ t, bool_decide (priority t = p)) l).

(** The document stored under an id, if any. *)
Definition stored (id : ObjectId) (w : World) : option Task :=
  List.find (has_id id) (tasks w).

Definition updated_response (t : Task) : Response :=
  ok t (Some "Task updated successfully").
Definition deleted_response (t : Task) : Response :=
  ok t (Some "Task deleted successfully").

(** The record holds what the payload asked for: title and description
    trimmed, and the defaults where description, priority or status was
    omitted. *)
Definition trimmed_and_defaulted (body : TaskObject) (t : Task) : Prop :=
  (∀ s, o_title body = JStr s → title t = trim s)
  ∧ (∀ s, o_description body = JStr s → description t = trim s)
  ∧ (o_description body = JUndefined → description t = [])
  ∧ (∀ s, o_priority body = JStr s → s ≠ [] → priority t = s)
  ∧ (o_priority body = JUndefined → priority t = str "medium")
  ∧ (∀ s, o_status body = JStr s → s ≠ [] → status t = s)
  ∧ (o_status body = JUndefined → status t = str "pending").

(** The sum of all values of a [priority] object. *)
Definition sum_values (m : gmap jsstring nat) : nat :=
  map_fold (λ _ n acc, n + acc) 0 m.

(** A query parameter lets a value through: it is absent, empty or "all",
    or it is the value. *)
Definition lets_through (param : option jsstring) (value : jsstring) : Prop :=
  match param with
  | None => True
  | Some s => s = [] ∨ s = str "all" ∨ value = s
  end.

Definition with_order (order : option jsstring) (q : Query) : Query :=
  {| q_status := q_status q; q_priority := q_priority q;
     q_sortBy := q_sortBy q; q_order := order |}.

Definition with_status (s : string) (q : Query) : Query :=
  {| q_status := Some (str s); q_priority := q_priority q;
     q_sortBy := q_sortBy q; q_order := q_order q |}.

Definition list_response (l : list Task) : Response :=
  {| statusCode := 200; json := ListJson l (length l) |}.

(** Three records created one second apart. *)
Definition dated_task (id : ObjectId) (s : string) (created : Z) : Task :=
  {| _id := id; title := str "Write spec"; description := [];
     priority := str "medium"; status := str s;
     createdAt := created; updatedAt := created |}.

Definition dated_world : World :=
  {| tasks := [dated_task 0 "pending" 1000; dated_task 1 "completed" 2000;
               dated_task 2 "pending" 3000];
     next_ObjectId := 3%N; clock := frozen_clock; ticks := 0 |}.

(** ** The seeding script ([scripts/seed.js])

    The script declares the same schema, without the two [pre] hooks, and
    its own model on the same collection.  Console output and the
    connection are left out. *)

Definition sample (t d p s : string) : TaskObject :=
  {| o_title := JStr (str t); o_description := JStr (str d);
     o_priority := JStr (str p); o_status := JStr (str s) |}.

Definition sampleTasks : list TaskObject :=
  [ sample "Setup Development Environment"
      "Install Node.js, MongoDB, and configure development tools"
      "high" "completed";
    sample "Create API Documentation"
      "Write comprehensive API documentation using Swagger/OpenAPI"
      "medium" "in-progress";
    sample "Implement User Authentication"
      "Add JWT-based authentication system with login/register functionality"
      "high" "pending";
    sample "Write Unit Tests"
      "Create comprehensive unit tests for all API endpoints"
      "medium" "pending";
    sample "Setup CI/CD Pipeline"
      "Configure automated testing and deployment pipeline"
      "low" "pending";
    sample "Optimize Database Queries"
      "Add indexes and optimize MongoDB queries for better performance"
      "medium" "in-progress";
    sample "Add Error Logging"
      "Implement comprehensive error logging and monitoring"
      "low" "completed";
    sample "Create Frontend Components"
      "Build React components for task management interface"
      "high" "in-progress";
    sample "Setup Production Environment"
      "Configure production server with proper security measures"
      "high" "pending";
    sample "Implement Real-time Updates"
      "Add WebSocket support for real-time task updates"
      "low" "pending" ].

(** [Task.deleteMany({})] *)
Definition deleteMany : M unit := λ w, (inr (), set_tasks [] w).

(** [Task.insertMany(docs)] builds a document from every object, validates
    them all and rejects with the first validation error before anything
    is written; otherwise it inserts them in order.  No [save] hook runs:
    [updatedAt] keeps the reading taken for its default. *)
Fixpoint construct_all (docs : list TaskObject) : M (list Document) :=
  match docs with
  | [] => mret []
  | obj :: docs' =>
      d ← new_Task obj;
      ds ← construct_all docs';
      mret (d :: ds)
  end.

Definition validated (d : Document) : Exn + Task :=
  let o := doc_object d in
  match apply_path title_path (o_title o),
        apply_path description_path (o_description o),
        apply_path priority_path (o_priority o),
        apply_path status_path (o_status o) with
  | Some t, Some de, Some p, Some s =>
      inr {| _id := doc_id d; title := t; description := de;
             priority := p; status := s;
             createdAt := doc_createdAt d; updatedAt := doc_updatedAt d |}
  | _, _, _, _ => inl (ValidationError (validation_errors o))
  end.

Fixpoint validate_all (ds : list Document) : Exn + list Task :=
  match ds with
  | [] => inr []
  | d :: ds' =>
      match validated d with
      | inl err => inl err
      | inr t =>
          match validate_all ds' with
          | inl err => inl err
          | inr ts => inr (t :: ts)
          end
      end
  end.

Fixpoint insert_all (ts : list Task) : M (list Task) :=
  match ts with
  | [] => mret []
  | t :: ts' =>
      t' ← insertOne t;
      ts'' ← insert_all ts';
      mret (t' :: ts'')
  end.

Definition insertMany (docs : list TaskObject) : M (list Task) :=
  ds ← construct_all docs;
  ts ← lift (validate_all ds);
  insert_all ts.

(** [seedDatabase()]: clear the collection, insert the sample data. *)
Definition seedDatabase : M (list Task) :=
  _ ← deleteMany;
  insertMany sampleTasks.

(** The object a stored document was made from. *)
Definition object_of_task (t : Task) : TaskObject :=
  {| o_title := JStr (title t); o_description := JStr (description t);
     o_priority := JStr (priority t); o_status := JStr (status t) |}.

(** ** The status label of a task card ([index.html])

    [task.status.replace('-', ' ')]: with a string pattern, [replace]
    changes the first occurrence only. *)
Fixpoint replace_first (x y : N) (s : jsstring) : jsstring :=
  match s with
  | [] => []
  | c :: s' => if (c =? x)%N then y :: s' else c :: replace_first x y s'
  end.

Definition status_label (s : jsstring) : jsstring := replace_first 45 32 s.

(** ** More vocabulary *)

(** The value is a string longer than [n] code units once trimmed. *)
Definition overlong (n : nat) (v : JsVal) : bool :=
  match v with JStr s => n <? length (trim s) | _ => false end.

(** The value is falsy or a string: what [v ? v.trim() : ''] accepts. *)
Definition falsy_or_string (v : JsVal) : bool :=
  negb (truthy v) || match v with JStr _ => true | _ => false end.

(** The response of the error-handling middleware to a ValidationError. *)
Definition validation_error (details : list string) : Response :=
  {| statusCode := 400;
     json := FailureJson "Validation Error" (Some details) |}.

Definition internal_error : Response :=
  {| statusCode := 500; json := FailureJson "Internal Server Error" None |}.

(** The paths an accepted payload can still violate. *)
Definition length_violations (body : TaskObject) : list string :=
  (if overlong 200 (o_title body) then ["title"] else [])
  ++ (if overlong 1000 (o_description body) then ["description"] else []).

(** No white space at either end. *)
Definition trimmed (s : jsstring) : Prop := trim s = s.

(** The count a list response carries. *)
Definition listed_count (r : Response) : option nat :=
  match json r with ListJson _ n => Some n | _ => None end.

(** Every stored title and description is free of surrounding white
    space. *)
Definition all_trimmed (w : World) : Prop :=
  ∀ t, t ∈ tasks w → trimmed (title t) ∧ trimmed (description t).

(** The id is not in the collection and older than the generator: it was
    given out before and its record is gone. *)
Definition retired (id : ObjectId) (w : World) : Prop :=
  (id ∉ (_id <$> tasks w)) ∧ (id < next_ObjectId w)%N.

(** The ids [first], [first + 1], ... given to [n] documents. *)
Fixpoint ids_from (first : ObjectId) (n : nat) : list ObjectId :=
  match n with
  | 0 => []
  | S n' => first :: ids_from (N.succ first) n'
  end.

(** More sample data: texts of a given length, a payload that breaks both
    length limits, and payloads [trim] throws on. *)
Definition text_of_length (n : nat) : jsstring := replicate n 97%N.

Definition overlong_body : TaskObject :=
  {| o_title := JStr (text_of_length 201);
     o_description := JStr (text_of_length 1001);
     o_priority := JUndefined; o_status := JUndefined |}.


(** The schema stores the four strings of the object as they are. *)
Definition stored_as_is (o : TaskObject) : bool :=
  match o_title o, o_description o, o_priority o, o_status o with
  | JStr t, JStr d, JStr p, JStr s =>
      bool_decide (apply_path title_path (JStr t) = Some t)
      && bool_decide (apply_path description_path (JStr d) = Some d)
      && bool_decide (apply_path priority_path (JStr p) = Some p)
      && bool_decide (apply_path status_path (JStr s) = Some s)
  | _, _, _, _ => false
  end.

(** The world after [n] documents were built and none written. *)
Definition after_construction (n : nat) (w : World) : World :=
  {| tasks := tasks w;
     next_ObjectId := (next_ObjectId w + N.of_nat n)%N;
     clock := clock w; ticks := 2 * n + ticks w |}.

(** ** The routes with an [:id], on the parameter as it arrives

    [findById], [findByIdAndUpdate] and [findByIdAndDelete] put
    [req.params.id] in the conditions [{ _id: ... }] of a query; when the
    query runs, its [pre] hooks come first, then the conditions are cast,
    and a parameter that is no ObjectId rejects the query with a CastError
    before validators run and before anything is sent to the store.  The
    cast itself is Mongoose's and the driver's: the routes take it as a
    parameter. *)

Definition invalid_id_format : Response :=
  {| statusCode := 400; json := FailureJson "Invalid ID format" None |}.

Section IdParameter.

Variable castObjectId : jsstring → option ObjectId.

Definition cast_id (param : jsstring) : M ObjectId := λ w,
  match castObjectId param with
  | Some id => (inr id, w)
  | None => (inl CastError, w)
  end.

(** [Task.findByIdAndUpdate(req.params.id, ...)]: the
    [pre('findOneAndUpdate')] hook has read the clock when the cast
    fails. *)
Definition findByIdAndUpdate_param (param : jsstring) (update : TaskObject)
  : M (option Task) :=
  match castObjectId param with
  | Some id => findByIdAndUpdate id update
  | None => _ ← Date_now; throw CastError
  end.

(** GET /api/tasks/:id *)
Definition get_api_tasks_param (param : jsstring) : Handler :=
  asyncHandler (
    id ← cast_id param;
    task ← findById id;
    match task with
    | None => mret NotFound
    | Some task => mret (ok task None)
    end).

(** PUT /api/tasks/:id *)
Definition put_api_tasks_param (param : jsstring) (body : TaskObject)
  : Handler :=
  use (validateTask body) (asyncHandler (
    updateData ← task_object body;
    task ← findByIdAndUpdate_param param updateData;
    match task with
    | None => mret NotFound
    | Some task => mret (ok task (Some "Task updated successfully"))
    end)).

(** DELETE /api/tasks/:id *)
Definition delete_api_tasks_param (param : jsstring) : Handler :=
  asyncHandler (
    id ← cast_id param;
    task ← findByIdAndDelete id;
    match task with
    | None => mret NotFound
    | Some task => mret (ok task (Some "Task deleted successfully"))
    end).

End IdParameter.

(** The cast of Mongoose 7, which hands the string to the driver's
    ObjectId constructor: a string of 12 characters of one byte each gives
    those 12 bytes, a string of 24 hexadecimal digits the 12 bytes they
    spell, and anything else is no ObjectId.  An ObjectId is kept as the
    number its 12 bytes spell, most significant byte first.  Used to run
    the routes on examples; the theorems hold for every cast. *)
Definition hex_digit (c : N) : option N :=
  if ((48 <=? c) && (c <=? 57))%N then Some (c - 48)%N
  else if ((97 <=? c) && (c <=? 102))%N then Some (c - 87)%N
  else if ((65 <=? c) && (c <=? 70))%N then Some (c - 55)%N
  else None.

Fixpoint hex_value (acc : N) (s : jsstring) : option N :=
  match s with
  | [] => Some acc
  | c :: s' =>
      match hex_digit c with
      | Some d => hex_value (16 * acc + d)%N s'
      | None => None
      end
  end.

Fixpoint bytes_value (acc : N) (s : jsstring) : option N :=
  match s with
  | [] => Some acc
  | c :: s' => if (c <? 128)%N then bytes_value (256 * acc + c)%N s' else None
  end.

Definition driver_cast (s : jsstring) : option ObjectId :=
  if length s =? 12 then bytes_value 0 s
  else if length s =? 24 then hex_value 0 s
  else None.

(** The 24 digits of the ObjectId 1, and a string that is no ObjectId. *)
Definition id_one : jsstring := str "000000000000000000000001".
Definition id_malformed : jsstring := str "xyz".

(** ** Ascending and descending

    A sequence of documents in ascending, or descending, order of a field:
    each document sorts before the next one. *)
Definition ascending (name : jsstring) (l : list Task) : Prop :=
  Sorted (sorts_before name 1) l.
Definition descending (name : jsstring) (l : list Task) : Prop :=
  Sorted (sorts_before name (-1)) l.

(** A store whose sort does what [cursor.sort] is documented to do with
    the direction it is handed: ascending for 1, descending for -1. *)
Definition sorts_as_directed
    (store_sort : jsstring → Z → list Task → Exn + list Task) : Prop :=
  ∀ name l l',
    (store_sort name 1%Z l = inr l' → ascending name l')
    ∧ (store_sort name (-1)%Z l = inr l' → descending name l').

(** How many of the two length limits a payload breaks. *)
Definition limits_broken (body : TaskObject) : nat :=
  (if overlong 200 (o_title body) then 1 else 0)
  + (if overlong 1000 (o_description body) then 1 else 0).

(** No white space at the front. *)
Definition starts_clean (s : jsstring) : Prop :=
  match s with [] => True | c :: _ => is_whitespace c = false end.

(** * Properties *)

(** ** Trimming *)

Lemma trimStart_clean s : starts_clean (trimStart s).
Proof.
  induction s as [|c s IH]; simpl; [done|].
  destruct (is_whitespace c) eqn:W; [done|]. exact W.
Qed.

Lemma trimStart_fixed s : starts_clean s → trimStart s = s.
Proof. destruct s as [|c s]; simpl; [done|]. by intros ->. Qed.

Lemma trimEnd_clean s : starts_clean s → starts_clean (trimEnd s).
Proof.
  destruct s as [|c s]; simpl; [done|]. intros W.
  destruct (trimEnd s); [rewrite W|]; done.
Qed.

Lemma trimEnd_idem s : trimEnd (trimEnd s) = trimEnd s.
Proof.
  induction s as [|c s IH]; simpl; [done|].
  destruct (trimEnd s) as [|d r] eqn:E.
  - destruct (is_whitespace c) eqn:W; simpl; [done|]. by rewrite W.
  - change (trimEnd (c :: d :: r)) with
      (match trimEnd (d :: r) with
       | [] => if is_whitespace c then [] else [c]
       | x => c :: x
       end).
    by rewrite IH.
Qed.

Lemma trim_idem s : trim (trim s) = trim s.
Proof.
  unfold trim.
  rewrite (trimStart_fixed (trimEnd (trimStart s))).
  - apply trimEnd_idem.
  - apply trimEnd_clean, trimStart_clean.
Qed.

Example trim_padded : trim (str "  Write spec ") = str "Write spec".
Proof. reflexivity. Qed.

Example trim_blank : trim (str "   ") = [].
Proof. reflexivity. Qed.

(** ** Validation (C1) *)

Lemma length_zero_nil (s : jsstring) : (length s =? 0) = bool_decide (s = []).
Proof. by destruct s. Qed.

Lemma truthy_str s : truthy (JStr s) = negb (bool_decide (s = [])).
Proof. done. Qed.

Lemma trim_nil : trim [] = [].
Proof. done. Qed.

(** The verdict on a title that is a string. *)
Lemma validateTask_string s body :
  o_title body = JStr s →
  validateTask body =
    if bool_decide (trim s = []) then Respond MissingField_title
    else if truthy (o_priority body)
            && negb (includes priorities (o_priority body))
    then Respond InvalidEnum_priority
    else if truthy (o_status body) && negb (includes statuses (o_status body))
    then Respond InvalidEnum_status
    else Next.
Proof.
  intros E. unfold validateTask. rewrite E. simpl.
  rewrite length_zero_nil.
  case_bool_decide as Hs; simpl; [|done].
  subst s. by rewrite trim_nil, bool_decide_eq_true_2.
Qed.

Lemma validateTask_falsy body :
  truthy (o_title body) = false → validateTask body = Respond MissingField_title.
Proof. intros E. unfold validateTask. by rewrite E. Qed.

(** A truthy title that is not a string makes the middleware throw. *)
Lemma validateTask_throws body :
  truthy (o_title body) = true → (∀ s, o_title body ≠ JStr s) →
  validateTask body = Throw TypeError.
Proof.
  intros T N. unfold validateTask. rewrite T. simpl.
  destruct (o_title body); try done. by destruct (N s).
Qed.

Lemma use_respond body r h w :
  validateTask body = Respond r → use (validateTask body) h w = (r, w).
Proof. by intros ->. Qed.

(** C1, counterexample: a payload with a title and an empty-string
    priority.  The priority is supplied and is none of low, medium, high,
    so the order as specified rejects it with InvalidEnum("priority");
    [validateTask] lets it through, because [priority && ...] skips every
    falsy value. *)
Lemma validateTask_empty_priority :
  let body := {| o_title := JStr (str "a"); o_description := JUndefined;
                 o_priority := JStr []; o_status := JUndefined |} in
  validation_as_specified body = Respond InvalidEnum_priority
  ∧ validateTask body = Next
  ∧ validateTask body ≠ validation_as_specified body.
Proof. by vm_compute. Qed.

(** C1, amended: the checks run in a fixed order and the first failure is
    the response, for create and for update, with no effect on the world;
    the first check fails when the title is falsy (absent, null, false, 0,
    the empty string) or a string that is empty once trimmed, and the enum
    checks skip a value that is falsy, not only one that is absent. *)
Theorem validateTask_order body :
  (validateTask body = Respond MissingField_title ↔
     truthy (o_title body) = false
     ∨ ∃ s, o_title body = JStr s ∧ trim s = [])
  ∧ (validateTask body = Respond InvalidEnum_priority ↔
       nonblank (o_title body) ∧ outside priorities (o_priority body))
  ∧ (validateTask body = Respond InvalidEnum_status ↔
       nonblank (o_title body) ∧ ¬ outside priorities (o_priority body)
       ∧ outside statuses (o_status body))
  ∧ (validateTask body = Next ↔
       nonblank (o_title body) ∧ ¬ outside priorities (o_priority body)
       ∧ ¬ outside statuses (o_status body))
  ∧ (∀ r id w, validateTask body = Respond r →
       post_api_tasks body w = (r, w) ∧ put_api_tasks_id id body w = (r, w)).
Proof.
  assert (Hcases : (∃ s, o_title body = JStr s)
                   ∨ (truthy (o_title body) = false ∧ ∀ s, o_title body ≠ JStr s)
                   ∨ (truthy (o_title body) = true ∧ ∀ s, o_title body ≠ JStr s)).
  { destruct (o_title body); eauto;
      match goal with |- context [truthy ?v] => destruct (truthy v) end;
      naive_solver. }
  assert (Hroutes : ∀ r id w, validateTask body = Respond r →
            post_api_tasks body w = (r, w) ∧ put_api_tasks_id id body w = (r, w)).
  { intros r id w Hr. unfold post_api_tasks, put_api_tasks_id.
    by rewrite !(use_respond _ r). }
  unfold nonblank, outside.
  destruct Hcases as [[s E] | [[T N] | [T N]]].
  - rewrite (validateTask_string s body E) in *. rewrite E, ?truthy_str.
    destruct (bool_decide (trim s = [])) eqn:Hs;
      [apply bool_decide_eq_true in Hs | apply bool_decide_eq_false in Hs].
    + split_and!; try done; naive_solver.
    + assert (s ≠ []) by (by intros ->).
      rewrite (bool_decide_eq_false_2 (s = [])) by done.
      destruct (truthy (o_priority body)),
        (includes priorities (o_priority body)),
        (truthy (o_status body)), (includes statuses (o_status body));
        simpl in *.
      all: split_and!; try done; try naive_solver.
  - rewrite (validateTask_falsy body T) in *.
    split_and!; try done; naive_solver.
  - rewrite (validateTask_throws body T N) in *. rewrite T.
    split_and!; try done; naive_solver.
Qed.

(** ** Valid payloads reach the store as strings *)

Lemma valid_title_inv v :
  valid_title v = true →
  ∃ s, v = JStr s ∧ trim s ≠ [] ∧ length (trim s) ≤ 200.
Proof.
  destruct v; try done. simpl. intros [H1 H2]%andb_prop. exists s.
  apply negb_true_iff, bool_decide_eq_false in H1.
  apply Nat.leb_le in H2. done.
Qed.

Lemma valid_enum_inv values v :
  valid_enum values v = true →
  truthy v = false ∨ ∃ s, v = JStr s ∧ s ≠ [] ∧ s ∈ values.
Proof.
  unfold valid_enum. destruct (truthy v) eqn:T; [|by left]. simpl.
  destruct v; try done. simpl. intros H%bool_decide_eq_true. right.
  exists s. split_and!; try done. intros ->. done.
Qed.

Lemma valid_enum_passes values v :
  valid_enum values v = true → truthy v && negb (includes values v) = false.
Proof.
  unfold valid_enum. destruct (truthy v); simpl; [|done]. by intros ->.
Qed.

Lemma valid_payload_next body :
  valid_payload body = true → validateTask body = Next.
Proof.
  unfold valid_payload. intros [[[Ht _]%andb_prop Hp]%andb_prop Hs]%andb_prop.
  destruct (valid_title_inv _ Ht) as (s & E & Hne & _).
  rewrite (validateTask_string s body E).
  rewrite bool_decide_eq_false_2 by done.
  by rewrite (valid_enum_passes _ _ Hp), (valid_enum_passes _ _ Hs).
Qed.

Lemma medium_enumerated : str "medium" ∈ priorities.
Proof. unfold priorities. rewrite !elem_of_cons. auto. Qed.

Lemma pending_enumerated : str "pending" ∈ statuses.
Proof. unfold statuses. rewrite !elem_of_cons. auto. Qed.

Lemma js_or_priority body :
  valid_enum priorities (o_priority body) = true →
  js_or (o_priority body) (JStr (str "medium")) = JStr (priority_of body)
  ∧ priority_of body ∈ priorities.
Proof.
  intros [T | (s & E & Hne & Hin)]%valid_enum_inv; unfold js_or, priority_of.
  - rewrite T. pose proof medium_enumerated.
    destruct (o_priority body); try done.
    simpl in T. apply negb_false_iff in T. by rewrite T.
  - rewrite E. simpl. by rewrite !bool_decide_eq_false_2.
Qed.

Lemma js_or_status body :
  valid_enum statuses (o_status body) = true →
  js_or (o_status body) (JStr (str "pending")) = JStr (status_of body)
  ∧ status_of body ∈ statuses.
Proof.
  intros [T | (s & E & Hne & Hin)]%valid_enum_inv; unfold js_or, status_of.
  - rewrite T. pose proof pending_enumerated.
    destruct (o_status body); try done.
    simpl in T. apply negb_false_iff in T. by rewrite T.
  - rewrite E. simpl. by rewrite !bool_decide_eq_false_2.
Qed.

Lemma valid_description_inv v :
  valid_description v = true →
  (truthy v = false ∧ match v with JStr s => trim s | _ => [] end = [])
  ∨ ∃ s, v = JStr s ∧ s ≠ [] ∧ length (trim s) ≤ 1000.
Proof.
  unfold valid_description. destruct (truthy v) eqn:T; simpl.
  - destruct v; try done. intros H%Nat.leb_le. right. exists s.
    split_and!; try done. by intros ->.
  - intros _. left. split; [done|]. destruct v; try done.
    simpl in T. apply negb_false_iff, bool_decide_eq_true in T. by subst.
Qed.

(** The routes hand only strings to the model. *)
Lemma create_object_strings body w :
  valid_payload body = true → task_object body w = (inr (object_of body), w).
Proof.
  unfold valid_payload.
  intros [[[Ht Hd]%andb_prop Hp]%andb_prop Hs]%andb_prop.
  destruct (valid_title_inv _ Ht) as (s & E & _ & _).
  destruct (js_or_priority body Hp) as [Ep _].
  destruct (js_or_status body Hs) as [Es _].
  unfold task_object, object_of, title_of, description_of.
  unfold mbind, M_bind, mret, M_ret, lift. rewrite E, Ep, Es. simpl.
  destruct (valid_description_inv _ Hd) as [[T Hn] | (d & Ed & Hne & _)].
  - rewrite T. simpl. by rewrite Hn.
  - rewrite Ed. simpl. by rewrite bool_decide_eq_false_2.
Qed.

(** The schema accepts what a valid payload asks to store, unchanged. *)
Lemma schema_accepts body :
  valid_payload body = true →
  apply_path title_path (JStr (title_of body)) = Some (title_of body)
  ∧ apply_path description_path (JStr (description_of body))
    = Some (description_of body)
  ∧ apply_path priority_path (JStr (priority_of body)) = Some (priority_of body)
  ∧ apply_path status_path (JStr (status_of body)) = Some (status_of body).
Proof.
  unfold valid_payload.
  intros [[[Ht Hd]%andb_prop Hp]%andb_prop Hs]%andb_prop.
  destruct (valid_title_inv _ Ht) as (s & E & Hne & Hlen).
  destruct (js_or_priority body Hp) as [_ Ip].
  destruct (js_or_status body Hs) as [_ Is].
  unfold apply_path, validators, title_of, description_of. simpl.
  rewrite E. split_and!.
  - rewrite trim_idem, (bool_decide_eq_false_2 (trim s = [])) by done. simpl.
    by rewrite (proj2 (Nat.leb_le _ _) Hlen).
  - destruct (valid_description_inv _ Hd) as [[T Hn] | (d & Ed & _ & Hl)].
    + by rewrite Hn.
    + rewrite Ed, trim_idem. by rewrite (proj2 (Nat.leb_le _ _) Hl).
  - by rewrite bool_decide_eq_true_2.
  - by rewrite bool_decide_eq_true_2.
Qed.

(** ** Create *)

(** What a create with a valid payload does, when the id generated is not
    in the collection. *)
Lemma post_valid body w :
  valid_payload body = true →
  next_ObjectId w ∉ (_id <$> tasks w) →
  post_api_tasks body w =
    (created_response (created body w),
     {| tasks := tasks w ++ [created body w];
        next_ObjectId := N.succ (next_ObjectId w);
        clock := clock w; ticks := 3 + ticks w |}).
Proof.
  intros V F. unfold post_api_tasks.
  rewrite (valid_payload_next body V).
  unfold use, asyncHandler, mbind, M_bind.
  rewrite (create_object_strings body w V).
  destruct (schema_accepts body V) as (Et & Ed & Ep & Es).
  unfold new_Task, save, mbind, M_bind, mret, M_ret.
  cbn -[apply_path title_of description_of priority_of status_of].
  rewrite Et, Ed, Ep, Es. unfold mbind, M_bind, insertOne.
  cbn -[title_of description_of priority_of status_of].
  rewrite bool_decide_eq_false_2 by done.
  done.
Qed.

Lemma advances_refl w : advances w w.
Proof. by repeat split. Qed.

Lemma errorHandler_not_201 e : statusCode (errorHandler e) ≠ 201.
Proof. by destruct e. Qed.

Lemma validateTask_respond body r :
  validateTask body = Respond r →
  r = MissingField_title ∨ r = InvalidEnum_priority ∨ r = InvalidEnum_status.
Proof.
  unfold validateTask. repeat case_match; naive_solver.
Qed.

Lemma validateTask_respond_400 body r :
  validateTask body = Respond r → statusCode r = 400.
Proof. intros [->|[->| ->]]%validateTask_respond; done. Qed.

(** Building the object literal touches nothing. *)
Lemma task_object_pure body w :
  (task_object body w).2 = w.
Proof.
  unfold task_object, mbind, M_bind, mret, M_ret, lift.
  destruct (call_trim (o_title body)); [done|].
  destruct (truthy (o_description body)); [|done].
  by destruct (call_trim (o_description body)).
Qed.

Lemma apply_path_valid p v s :
  apply_path p v = Some s → validators p s = true.
Proof.
  unfold apply_path. destruct v; try done.
  case_match; [|done]. by intros [= <-].
Qed.

Lemma schema_ok_applied (vt vd vp vs : JsVal) (t : Task) :
  apply_path title_path vt = Some (title t) →
  apply_path description_path vd = Some (description t) →
  apply_path priority_path vp = Some (priority t) →
  apply_path status_path vs = Some (status t) →
  schema_ok t.
Proof.
  intros Ht%apply_path_valid Hd%apply_path_valid
         Hp%apply_path_valid Hs%apply_path_valid.
  unfold validators in *. simpl in *.
  rewrite andb_true_r in Ht, Hd.
  apply andb_prop in Ht as [Ht1%negb_true_iff%bool_decide_eq_false Ht2%Nat.leb_le].
  apply Nat.leb_le in Hd.
  apply bool_decide_eq_true in Hp, Hs.
  done.
Qed.

(** Every create either stores nothing, with a response other than 201, or
    appends one document that meets the schema. *)
Lemma post_cases body w :
  let r := (post_api_tasks body w).1 in
  let w' := (post_api_tasks body w).2 in
  (statusCode r ≠ 201 ∧ advances w w')
  ∨ (∃ t, r = created_response t
        ∧ tasks w' = tasks w ++ [t]
        ∧ _id t = next_ObjectId w ∧ (_id t ∉ (_id <$> tasks w))
        ∧ schema_ok t
        ∧ createdAt t = clock w (ticks w)
        ∧ updatedAt t = clock w (2 + ticks w)
        ∧ next_ObjectId w' = N.succ (next_ObjectId w)
        ∧ clock w' = clock w ∧ ticks w' = 3 + ticks w).
Proof.
  unfold post_api_tasks, use.
  destruct (validateTask body) as [r| |e] eqn:V; simpl.
  - left. split; [|apply advances_refl].
    by rewrite (validateTask_respond_400 body r V).
  - unfold asyncHandler, mbind, M_bind.
    pose proof (task_object_pure body w) as P.
    destruct (task_object body w) as [[e|obj] w0]; simpl in P; subst w0.
    { simpl. left. split; [apply errorHandler_not_201 | apply advances_refl]. }
    unfold new_Task, save, mbind, M_bind, mret, M_ret.
    cbn -[apply_path].
    destruct (apply_path title_path (o_title obj)) as [t|] eqn:Et;
    [destruct (apply_path description_path (o_description obj)) as [d|] eqn:Ed;
     [destruct (apply_path priority_path (o_priority obj)) as [p|] eqn:Ep;
      [destruct (apply_path status_path (o_status obj)) as [s|] eqn:Es|]|]|].
    2-5: left; split; [done | repeat split; simpl; lia].
    unfold mbind, M_bind, insertOne. cbn -[apply_path].
    case_bool_decide as F.
    { left. split; [done | repeat split; simpl; lia]. }
    right. eexists. split; [reflexivity|]. simpl.
    split_and!; try done.
    eapply schema_ok_applied; simpl; eauto.
  - left. split; [apply errorHandler_not_201 | apply advances_refl].
Qed.

(** ** Well-formed worlds *)

Lemma wf_empty clock :
  (∀ i j, i ≤ j → (clock i ≤ clock j)%Z) → wf_world (empty_world clock).
Proof.
  intros Hm. split; simpl; try done; try (intros t Ht; by apply elem_of_nil in Ht).
  constructor.
Qed.

Lemma wf_fresh w : wf_world w → next_ObjectId w ∉ (_id <$> tasks w).
Proof.
  intros W (t & E & Ht)%list_elem_of_fmap.
  pose proof (ids_generated w W t Ht). lia.
Qed.

Lemma wf_advances w w' : wf_world w → advances w w' → wf_world w'.
Proof.
  intros W (Et & Ec & Hk & Hn). split; rewrite ?Et, ?Ec.
  - apply W.
  - intros t Ht. pose proof (ids_generated w W t Ht). lia.
  - apply W.
  - apply W.
  - apply W.
  - intros t Ht. pose proof (stamps_past w W t Ht).
    pose proof (clock_monotone w W _ _ Hk). lia.
Qed.

(** Create keeps the world well formed. *)
Lemma wf_world_post body w :
  wf_world w → wf_world (post_api_tasks body w).2.
Proof.
  intros W.
  destruct (post_cases body w) as [[_ A] | (t & _ & Et & Ei & Hf & Hs & Hc & Hu & En & Ec & Ek)].
  { by eapply wf_advances. }
  assert (Hcu : (clock w (ticks w) ≤ clock w (2 + ticks w))%Z)
    by (apply (clock_monotone w W); lia).
  assert (Hup : (clock w (2 + ticks w) ≤ clock w (3 + ticks w))%Z)
    by (apply (clock_monotone w W); lia).
  assert (Hnow : (clock w (ticks w) ≤ clock w (3 + ticks w))%Z)
    by (apply (clock_monotone w W); lia).
  split; rewrite ?Et, ?En, ?Ec, ?Ek.
  - rewrite fmap_app. simpl. apply NoDup_app. split_and!.
    + apply W.
    + intros x Hx [->|[]%elem_of_nil]%elem_of_cons. rewrite <- Ei in *. done.
    + apply NoDup_singleton.
  - intros x [Hx | ->%list_elem_of_singleton]%elem_of_app.
    + pose proof (ids_generated w W x Hx). lia.
    + lia.
  - apply W.
  - intros x [Hx | ->%list_elem_of_singleton]%elem_of_app; [by apply W | done].
  - intros x [Hx | ->%list_elem_of_singleton]%elem_of_app; [by apply W |].
    rewrite Hc, Hu. done.
  - intros x [Hx | ->%list_elem_of_singleton]%elem_of_app.
    + pose proof (stamps_past w W x Hx). lia.
    + rewrite Hu. done.
Qed.

(** ** Statistics, as computed *)

Lemma filter_no_filter l : List.filter (matches no_filter) l = l.
Proof. induction l as [|t l IH]; simpl; [done|]. by rewrite IH. Qed.

Lemma filter_status_is s l :
  List.filter (matches (status_is s)) l
  = List.filter (λ t, bool_decide (status t = s)) l.
Proof.
  apply List.filter_ext. intros t. unfold matches. simpl. apply andb_true_r.
Qed.

Lemma get_api_stats_eq w :
  get_api_stats w =
    ({| statusCode := 200;
        json := StatsJson
          {| total := length (tasks w);
             completed := count_status (str "completed") (tasks w);
             pending := count_status (str "pending") (tasks w);
             inProgress := count_status (str "in-progress") (tasks w);
             by_priority := reduce_priority (group_by_priority (tasks w)) |} |},
     w).
Proof.
  unfold get_api_stats, asyncHandler, mbind, M_bind, countDocuments,
    aggregate_group_priority, mret, M_ret, count_status.
  cbn -[str reduce_priority group_by_priority matches].
  by rewrite filter_no_filter, !filter_status_is.
Qed.

Lemma stats_eq w :
  stats w = Some
    {| total := length (tasks w);
       completed := count_status (str "completed") (tasks w);
       pending := count_status (str "pending") (tasks w);
       inProgress := count_status (str "in-progress") (tasks w);
       by_priority := reduce_priority (group_by_priority (tasks w)) |}.
Proof. unfold stats. by rewrite get_api_stats_eq. Qed.

Lemma ticking_monotone i j : i ≤ j → (ticking_clock i ≤ ticking_clock j)%Z.
Proof. unfold ticking_clock. lia. Qed.

Lemma frozen_monotone i j : i ≤ j → (frozen_clock i ≤ frozen_clock j)%Z.
Proof. done. Qed.

Lemma wf_sample_world : wf_world sample_world.
Proof.
  split; simpl.
  - repeat constructor; set_solver.
  - intros t Ht. repeat (apply elem_of_cons in Ht as [-> | Ht]; [done|]).
    by apply elem_of_nil in Ht.
  - done.
  - intros t Ht. repeat (apply elem_of_cons in Ht as [-> | Ht];
      [unfold schema_ok, priorities, statuses; simpl;
       rewrite !elem_of_cons; split_and!; auto; lia|]).
    by apply elem_of_nil in Ht.
  - intros t Ht. repeat (apply elem_of_cons in Ht as [-> | Ht]; [done|]).
    by apply elem_of_nil in Ht.
  - intros t Ht. repeat (apply elem_of_cons in Ht as [-> | Ht]; [done|]).
    by apply elem_of_nil in Ht.
Qed.

(** ** Time stamps of a created record (C2) *)

(** C2, counterexample: a create on the empty collection, with a clock that
    advances by one millisecond at every reading.  [createdAt] is the
    reading taken for its default when the document is built (0);
    [updatedAt] is the reading the [pre('save')] hook takes later (2): the
    record returned does not have [createdAt] equal to [updatedAt]. *)
Lemma create_stamps_differ :
  wf_world (empty_world ticking_clock)
  ∧ valid_payload (titled "Write spec") = true
  ∧ ∃ t w',
      post_api_tasks (titled "Write spec") (empty_world ticking_clock)
      = (created_response t, w')
      ∧ createdAt t = 0%Z ∧ updatedAt t = 2%Z
      ∧ createdAt t ≠ updatedAt t.
Proof.
  split; [apply wf_empty, ticking_monotone|]. split; [done|].
  eexists _, _. split; [apply post_valid; [done | simpl; apply not_elem_of_nil]|].
  done.
Qed.

(** C2, amended: for every valid payload, create succeeds and stores the
    record it returns; [createdAt] is the clock reading taken when the
    document is built and [updatedAt] the reading taken by the save hook,
    so that [createdAt ≤ updatedAt] under a monotone clock, with equality
    exactly when the clock shows the same value at both readings. *)
Theorem create_timestamps body w :
  wf_world w → valid_payload body = true →
  ∃ t w',
    post_api_tasks body w = (created_response t, w')
    ∧ tasks w' = tasks w ++ [t]
    ∧ createdAt t = clock w (ticks w)
    ∧ updatedAt t = clock w (2 + ticks w)
    ∧ (createdAt t ≤ updatedAt t)%Z
    ∧ (createdAt t = updatedAt t ↔ clock w (2 + ticks w) = clock w (ticks w)).
Proof.
  intros W V. eexists _, _.
  split; [apply (post_valid body w V), wf_fresh, W|]. simpl.
  split_and!; try done.
  apply (clock_monotone w W). lia.
Qed.

(** The record created in the sample world, where the clock stands still. *)
Lemma create_timestamps_witness :
  ∃ t w',
    post_api_tasks (titled "Write spec") sample_world = (created_response t, w')
    ∧ tasks w' = tasks sample_world ++ [t]
    ∧ createdAt t = 1000%Z
    ∧ updatedAt t = 1000%Z
    ∧ (createdAt t ≤ updatedAt t)%Z
    ∧ (createdAt t = updatedAt t ↔ 1000%Z = 1000%Z).
Proof.
  apply (create_timestamps (titled "Write spec") sample_world);
    [apply wf_sample_world | reflexivity].
Defined.

(** ** A failed create stores nothing (C9) *)

(** C9: when create fails (any response other than 201), the collection is
    unchanged and so is the total the statistics report; a payload rejected
    by the validation middleware gets that rejection and leaves the whole
    world as it was, and a payload whose title is absent or blank is
    rejected with MissingField("title"). *)
Theorem failed_create_stores_nothing body w :
  statusCode (post_api_tasks body w).1 ≠ 201 →
  tasks (post_api_tasks body w).2 = tasks w
  ∧ total <$> stats (post_api_tasks body w).2 = total <$> stats w
  ∧ (∀ r, validateTask body = Respond r → post_api_tasks body w = (r, w))
  ∧ (absent_or_blank (o_title body) = true →
     post_api_tasks body w = (MissingField_title, w)).
Proof.
  intros Hfail.
  assert (Et : tasks (post_api_tasks body w).2 = tasks w).
  { destruct (post_cases body w) as [[_ A] | (t & Er & _)].
    - apply A.
    - by rewrite Er in Hfail. }
  split_and!.
  - done.
  - by rewrite !stats_eq, Et.
  - intros r Hr. unfold post_api_tasks. by rewrite (use_respond _ r).
  - intros Hb. unfold post_api_tasks. apply use_respond.
    destruct (o_title body) as [| | | |s| |] eqn:E; try done.
    + by apply validateTask_falsy; rewrite E.
    + rewrite (validateTask_string s body E). simpl in Hb. by rewrite Hb.
Qed.

(** A create with an empty title on the sample world. *)
Lemma failed_create_stores_nothing_witness :
  tasks (post_api_tasks (titled "") sample_world).2 = tasks sample_world
  ∧ total <$> stats (post_api_tasks (titled "") sample_world).2
    = total <$> stats sample_world
  ∧ (∀ r, validateTask (titled "") = Respond r →
       post_api_tasks (titled "") sample_world = (r, sample_world))
  ∧ (absent_or_blank (o_title (titled "")) = true →
     post_api_tasks (titled "") sample_world
     = (MissingField_title, sample_world)).
Proof.
  apply (failed_create_stores_nothing (titled "") sample_world).
  vm_compute. discriminate.
Defined.

(** ** Lookup, replacement and deletion by id *)

Lemma find_has_id id l t : List.find (has_id id) l = Some t → _id t = id ∧ t ∈ l.
Proof.
  intros [Hin Hid]%List.find_some. split.
  - by apply bool_decide_eq_true in Hid.
  - by apply list_elem_of_In.
Qed.

Lemma find_none_not_elem id l :
  List.find (has_id id) l = None ↔ id ∉ (_id <$> l).
Proof.
  induction l as [|t l IH]; simpl.
  - split; [intros _; apply not_elem_of_nil | done].
  - unfold has_id at 1. case_bool_decide as E.
    + split; [done|]. intros []. subst. apply list_elem_of_here.
    + rewrite IH, not_elem_of_cons. naive_solver.
Qed.

Lemma find_app_missing id l l' :
  List.find (has_id id) l = None →
  List.find (has_id id) (l ++ l') = List.find (has_id id) l'.
Proof.
  induction l as [|t l IH]; simpl; [done|]. by destruct (has_id id t).
Qed.

Lemma find_replaceOne id t' l old :
  List.find (has_id id) l = Some old → _id t' = id →
  List.find (has_id id) (replaceOne id t' l) = Some t'.
Proof.
  intros Hf Hid. induction l as [|t l IH]; simpl in *; [done|].
  destruct (has_id id t) eqn:E; simpl.
  - unfold has_id. by rewrite bool_decide_eq_true_2.
  - rewrite E. by apply IH.
Qed.

Lemma find_replaceOne_ne id id' t' l :
  id' ≠ id → _id t' = id →
  List.find (has_id id') (replaceOne id t' l) = List.find (has_id id') l.
Proof.
  intros Hne Hid. induction l as [|t l IH]; simpl; [done|].
  destruct (has_id id t) eqn:E; simpl.
  - apply bool_decide_eq_true in E. unfold has_id.
    rewrite !bool_decide_eq_false_2 by congruence. done.
  - by rewrite IH.
Qed.

Lemma ids_replaceOne id t' l old :
  List.find (has_id id) l = Some old → _id t' = id →
  _id <$> replaceOne id t' l = _id <$> l.
Proof.
  intros Hf Hid. induction l as [|t l IH]; simpl in *; [done|].
  destruct (has_id id t) eqn:E; simpl.
  - apply bool_decide_eq_true in E. congruence.
  - f_equal. by apply IH.
Qed.

Lemma elem_of_replaceOne id t' l x :
  x ∈ replaceOne id t' l → x = t' ∨ x ∈ l.
Proof.
  induction l as [|t l IH]; simpl; [by right|].
  destruct (has_id id t); rewrite !elem_of_cons; naive_solver.
Qed.

Lemma deleteOne_missing id l :
  List.find (has_id id) l = None → deleteOne id l = l.
Proof.
  induction l as [|t l IH]; simpl; [done|].
  destruct (has_id id t); [done|]. intros H. by rewrite IH.
Qed.

Lemma elem_of_deleteOne id l x : x ∈ deleteOne id l → x ∈ l.
Proof.
  induction l as [|t l IH]; simpl; [done|].
  destruct (has_id id t); rewrite !elem_of_cons; naive_solver.
Qed.

Lemma ids_deleteOne id l :
  NoDup (_id <$> l) →
  NoDup (_id <$> deleteOne id l) ∧ id ∉ (_id <$> deleteOne id l).
Proof.
  induction l as [|t l IH]; simpl.
  - intros _. split; [constructor | apply not_elem_of_nil].
  - intros [Hn Hd]%NoDup_cons. destruct (has_id id t) eqn:E.
    + apply bool_decide_eq_true in E. by subst.
    + apply bool_decide_eq_false in E. destruct (IH Hd) as [IH1 IH2]. simpl.
      split.
      * apply NoDup_cons. split; [|done].
        intros (x & Ex & Hx%elem_of_deleteOne)%list_elem_of_fmap.
        apply Hn, list_elem_of_fmap. eauto.
      * rewrite not_elem_of_cons. split; [congruence | done].
Qed.

Lemma find_deleteOne_ne id id' l :
  id' ≠ id →
  List.find (has_id id') (deleteOne id l) = List.find (has_id id') l.
Proof.
  intros Hne. induction l as [|t l IH]; simpl; [done|].
  destruct (has_id id t) eqn:E; simpl.
  - apply bool_decide_eq_true in E. unfold has_id at 2.
    by rewrite bool_decide_eq_false_2 by congruence.
  - by rewrite IH.
Qed.

(** ** Update and delete, as computed *)

Lemma put_valid id body w :
  valid_payload body = true →
  put_api_tasks_id id body w =
    match stored id w with
    | None => (NotFound, tick 1 w)
    | Some old =>
        (updated_response (updated body w old),
         set_tasks (replaceOne id (updated body w old) (tasks w)) (tick 1 w))
    end.
Proof.
  intros V. unfold put_api_tasks_id.
  rewrite (valid_payload_next body V).
  unfold use, asyncHandler, mbind, M_bind.
  rewrite (create_object_strings body w V).
  destruct (schema_accepts body V) as (Et & Ed & Ep & Es).
  unfold findByIdAndUpdate, mbind, M_bind, mret, M_ret.
  cbn -[apply_path title_of description_of priority_of status_of].
  rewrite Et, Ed, Ep, Es. unfold updateOne, stored.
  cbn -[title_of description_of priority_of status_of].
  by destruct (List.find (has_id id) (tasks w)).
Qed.

Lemma get_eq id w :
  get_api_tasks_id id w =
    (match stored id w with Some t => ok t None | None => NotFound end, w).
Proof.
  unfold get_api_tasks_id, asyncHandler, mbind, M_bind, findById, stored.
  simpl. by destruct (List.find (has_id id) (tasks w)).
Qed.

Lemma delete_eq id w :
  delete_api_tasks_id id w =
    match stored id w with
    | Some t => (deleted_response t, set_tasks (deleteOne id (tasks w)) w)
    | None => (NotFound, w)
    end.
Proof.
  unfold delete_api_tasks_id, asyncHandler, mbind, M_bind, findByIdAndDelete,
    stored.
  by destruct (List.find (has_id id) (tasks w)).
Qed.

(** Every update either leaves the collection alone or replaces one stored
    document by one that meets the schema and keeps its id and creation
    date. *)
Lemma put_cases id body w :
  let r := (put_api_tasks_id id body w).1 in
  let w' := (put_api_tasks_id id body w).2 in
  advances w w'
  ∨ (∃ old t, stored id w = Some old
        ∧ r = updated_response t
        ∧ tasks w' = replaceOne id t (tasks w)
        ∧ _id t = _id old ∧ createdAt t = createdAt old
        ∧ updatedAt t = clock w (ticks w)
        ∧ schema_ok t
        ∧ next_ObjectId w' = next_ObjectId w
        ∧ clock w' = clock w ∧ ticks w' = 1 + ticks w).
Proof.
  unfold put_api_tasks_id, use.
  destruct (validateTask body) as [r| |e] eqn:V; simpl.
  - left. apply advances_refl.
  - unfold asyncHandler, mbind, M_bind.
    pose proof (task_object_pure body w) as P.
    destruct (task_object body w) as [[e|obj] w0]; simpl in P; subst w0.
    { left. apply advances_refl. }
    unfold findByIdAndUpdate, mbind, M_bind, mret, M_ret.
    cbn -[apply_path].
    destruct (apply_path title_path (o_title obj)) as [t|] eqn:Et;
    [destruct (apply_path description_path (o_description obj)) as [d|] eqn:Ed;
     [destruct (apply_path priority_path (o_priority obj)) as [p|] eqn:Ep;
      [destruct (apply_path status_path (o_status obj)) as [s|] eqn:Es|]|]|].
    2-5: left; repeat split; simpl; lia.
    unfold updateOne, stored. cbn -[apply_path].
    destruct (List.find (has_id id) (tasks w)) as [old|] eqn:F; simpl.
    + right. eexists old, _. split_and!; try done.
      eapply schema_ok_applied; simpl; eauto.
    + left. repeat split; simpl; lia.
  - left. apply advances_refl.
Qed.

(** Update keeps the world well formed. *)
Lemma wf_world_put id body w :
  wf_world w → wf_world (put_api_tasks_id id body w).2.
Proof.
  intros W.
  destruct (put_cases id body w)
    as [A | (old & t & Ho & _ & Et & Ei & Hc & Hu & Hs & En & Ec & Ek)].
  { by eapply wf_advances. }
  destruct (find_has_id _ _ _ Ho) as [Hid Hin].
  assert (Hnow : (clock w (ticks w) ≤ clock w (1 + ticks w))%Z)
    by (apply (clock_monotone w W); lia).
  split; rewrite ?Et, ?En, ?Ec, ?Ek.
  - rewrite (ids_replaceOne id t (tasks w) old); [apply W | exact Ho | congruence].
  - intros x [-> | Hx]%elem_of_replaceOne.
    + rewrite Ei. by apply W.
    + by apply W.
  - apply W.
  - intros x [-> | Hx]%elem_of_replaceOne; [done | by apply W].
  - intros x [-> | Hx]%elem_of_replaceOne; [| by apply W].
    rewrite Hc, Hu. pose proof (stamps_ordered w W old Hin).
    pose proof (stamps_past w W old Hin). lia.
  - intros x [-> | Hx]%elem_of_replaceOne.
    + by rewrite Hu.
    + pose proof (stamps_past w W x Hx). lia.
Qed.

(** Delete keeps the world well formed. *)
Lemma wf_world_delete id w :
  wf_world w → wf_world (delete_api_tasks_id id w).2.
Proof.
  intros W. rewrite delete_eq. destruct (stored id w) as [t|]; [|done].
  split; simpl; try (intros x Hx%elem_of_deleteOne; by apply W).
  - by apply ids_deleteOne, W.
  - apply W.
Qed.

(** ** Update keeps id and creation date (C3) *)

(** C3: for every stored record and every valid replacement payload, update
    succeeds, leaves [_id] and [createdAt] as they were, and sets
    [updatedAt] to the current clock reading, which is not before the
    previous [updatedAt]; the record returned is the one stored under the
    id afterwards, and no other record changes. *)
Theorem update_keeps_identity id body w old :
  wf_world w → valid_payload body = true → stored id w = Some old →
  ∃ t w',
    put_api_tasks_id id body w = (updated_response t, w')
    ∧ _id t = _id old
    ∧ createdAt t = createdAt old
    ∧ updatedAt t = clock w (ticks w)
    ∧ (updatedAt old ≤ updatedAt t)%Z
    ∧ stored id w' = Some t
    ∧ (∀ id', id' ≠ id → stored id' w' = stored id' w).
Proof.
  intros W V Ho. rewrite (put_valid id body w V), Ho.
  destruct (find_has_id _ _ _ Ho) as [Hid Hin].
  eexists _, _. split; [reflexivity|]. simpl. split_and!; try done.
  - by apply (stamps_past w W).
  - unfold stored. simpl. by eapply find_replaceOne.
  - intros id' Hne. unfold stored. simpl. by apply find_replaceOne_ne.
Qed.

(** An update of the second record of the sample world. *)
Lemma update_keeps_identity_witness :
  ∃ t w',
    put_api_tasks_id 1 (titled "Write the spec") sample_world
    = (updated_response t, w')
    ∧ _id t = 1%N
    ∧ createdAt t = 1000%Z
    ∧ updatedAt t = 1000%Z
    ∧ (1000 ≤ updatedAt t)%Z
    ∧ stored 1 w' = Some t
    ∧ (∀ id', id' ≠ 1%N → stored id' w' = stored id' sample_world).
Proof.
  apply (update_keeps_identity 1 (titled "Write the spec") sample_world
           (sample_task 1 "medium" "in-progress"));
    [apply wf_sample_world | reflexivity | reflexivity].
Defined.

(** ** Trimming and defaults (C7) *)

Lemma valid_trimmed_and_defaulted body (t : Task) :
  valid_payload body = true →
  title t = title_of body → description t = description_of body →
  priority t = priority_of body → status t = status_of body →
  trimmed_and_defaulted body t.
Proof.
  intros V Ht Hd Hp Hs. unfold trimmed_and_defaulted.
  rewrite Ht, Hd, Hp, Hs.
  unfold title_of, description_of, priority_of, status_of.
  split_and!.
  - by intros s ->.
  - by intros s ->.
  - by intros ->.
  - intros s -> Hne. by rewrite bool_decide_eq_false_2.
  - by intros ->.
  - intros s -> Hne. by rewrite bool_decide_eq_false_2.
  - by intros ->.
Qed.

(** C7: for create and for update, once validation has passed, the record
    stored and returned holds the title and the description trimmed, the
    empty string for an omitted description, "medium" for an omitted
    priority and "pending" for an omitted status; for update this holds
    whatever the stored record held before. *)
Theorem write_routes_trim_and_default body w :
  wf_world w → valid_payload body = true →
  (∃ t w', post_api_tasks body w = (created_response t, w')
      ∧ stored (_id t) w' = Some t
      ∧ trimmed_and_defaulted body t)
  ∧ (∀ id old, stored id w = Some old →
       ∃ t w', put_api_tasks_id id body w = (updated_response t, w')
         ∧ stored id w' = Some t
         ∧ trimmed_and_defaulted body t).
Proof.
  intros W V. split.
  - eexists _, _. split; [apply (post_valid body w V), wf_fresh, W|].
    split; [|by apply valid_trimmed_and_defaulted].
    unfold stored. simpl.
    rewrite (find_app_missing _ _ _ (proj2 (find_none_not_elem _ _) (wf_fresh w W))).
    simpl.
    unfold has_id. simpl. by rewrite bool_decide_eq_true_2.
  - intros id old Ho. rewrite (put_valid id body w V), Ho.
    eexists _, _. split; [reflexivity|].
    split; [|by apply valid_trimmed_and_defaulted].
    unfold stored. simpl. eapply find_replaceOne; [done|].
    by destruct (find_has_id _ _ _ Ho).
Qed.

(** A padded title and nothing else, on the sample world. *)
Lemma write_routes_trim_and_default_witness :
  (∃ t w', post_api_tasks (titled "  Write spec ") sample_world
           = (created_response t, w')
      ∧ stored (_id t) w' = Some t
      ∧ trimmed_and_defaulted (titled "  Write spec ") t)
  ∧ (∀ id old, stored id sample_world = Some old →
       ∃ t w', put_api_tasks_id id (titled "  Write spec ") sample_world
               = (updated_response t, w')
         ∧ stored id w' = Some t
         ∧ trimmed_and_defaulted (titled "  Write spec ") t).
Proof.
  apply (write_routes_trim_and_default (titled "  Write spec ") sample_world);
    [apply wf_sample_world | reflexivity].
Defined.

(** An update that omits priority and status puts the defaults in place of
    the stored "high" and "completed". *)
Example update_resets_omitted :
  (put_api_tasks_id 0 (titled "  Write spec ") sample_world).1
  = updated_response
      {| _id := 0%N; title := str "Write spec"; description := [];
         priority := str "medium"; status := str "pending";
         createdAt := 1000%Z; updatedAt := 1000%Z |}.
Proof. reflexivity. Qed.

(** ** Payloads the validation middleware lets through *)

Lemma validateTask_next_inv body :
  validateTask body = Next →
  ∃ s, o_title body = JStr s ∧ trim s ≠ []
       ∧ valid_enum priorities (o_priority body) = true
       ∧ valid_enum statuses (o_status body) = true.
Proof.
  intros V.
  destruct (o_title body) as [| |b|q|s|l|l] eqn:E;
    try (unfold validateTask in V; rewrite E in V; simpl in V;
         repeat case_match; done).
  exists s. rewrite (validateTask_string s body E) in V.
  case_bool_decide as Hs; [done|]. split; [done|]. split; [done|].
  unfold valid_enum.
  destruct (truthy (o_priority body)), (includes priorities (o_priority body)),
    (truthy (o_status body)), (includes statuses (o_status body));
    simpl in *; done.
Qed.

Lemma falsy_or_string_inv v :
  falsy_or_string v = true →
  (truthy v = false ∧ match v with JStr s => trim s | _ => [] end = [])
  ∨ ∃ s, v = JStr s ∧ s ≠ [].
Proof.
  unfold falsy_or_string. destruct (truthy v) eqn:T; simpl.
  - destruct v; try done. intros _. right. exists s. split; [done|].
    by intros ->.
  - intros _. left. split; [done|]. destruct v; try done.
    simpl in T. apply negb_false_iff, bool_decide_eq_true in T. by subst.
Qed.

Lemma task_object_accepted body w :
  validateTask body = Next → falsy_or_string (o_description body) = true →
  task_object body w = (inr (object_of body), w).
Proof.
  intros (s & E & _ & Hp & Hs)%validateTask_next_inv Hd.
  destruct (js_or_priority body Hp) as [Ep _].
  destruct (js_or_status body Hs) as [Es _].
  unfold task_object, object_of, title_of, description_of.
  unfold mbind, M_bind, mret, M_ret, lift. rewrite E, Ep, Es. simpl.
  destruct (falsy_or_string_inv _ Hd) as [[T Hn] | (d & Ed & Hne)].
  - rewrite T. simpl. by rewrite Hn.
  - rewrite Ed. simpl. by rewrite bool_decide_eq_false_2.
Qed.

(** A description that is truthy and not a string makes the handler throw. *)
Lemma task_object_throws body w :
  validateTask body = Next → falsy_or_string (o_description body) = false →
  task_object body w = (inl TypeError, w).
Proof.
  intros (s & E & _)%validateTask_next_inv Hd.
  unfold task_object, mbind, M_bind, mret, M_ret, lift. rewrite E. simpl.
  unfold falsy_or_string in Hd. apply orb_false_iff in Hd as [T Hs].
  apply negb_false_iff in T. rewrite T.
  by destruct (o_description body).
Qed.

Lemma ltb_leb_negb n m : (n <? m) = negb (m <=? n).
Proof. destruct (Nat.ltb_spec n m), (Nat.leb_spec m n); simpl; lia || done. Qed.

(** What the schema makes of the object built from an accepted payload:
    only the two length limits can still fail. *)
Lemma schema_on_accepted body :
  validateTask body = Next → falsy_or_string (o_description body) = true →
  apply_path title_path (JStr (title_of body))
  = (if overlong 200 (o_title body) then None else Some (title_of body))
  ∧ apply_path description_path (JStr (description_of body))
    = (if overlong 1000 (o_description body) then None
       else Some (description_of body))
  ∧ apply_path priority_path (JStr (priority_of body)) = Some (priority_of body)
  ∧ apply_path status_path (JStr (status_of body)) = Some (status_of body)
  ∧ validation_errors (object_of body) = length_violations body.
Proof.
  intros (s & E & Hne & Hp & Hs)%validateTask_next_inv Hd.
  destruct (js_or_priority body Hp) as [_ Ip].
  destruct (js_or_status body Hs) as [_ Is].
  assert (Ht : apply_path title_path (JStr (title_of body))
               = if overlong 200 (o_title body) then None
                 else Some (title_of body)).
  { unfold apply_path, validators, title_of, overlong. rewrite E. simpl.
    rewrite trim_idem, (bool_decide_eq_false_2 (trim s = [])) by done. simpl.
    rewrite ltb_leb_negb, andb_true_r. by destruct (_ <=? _). }
  assert (Hde : apply_path description_path (JStr (description_of body))
                = if overlong 1000 (o_description body) then None
                  else Some (description_of body)).
  { unfold apply_path, validators, description_of, overlong. simpl.
    destruct (falsy_or_string_inv _ Hd) as [[T Hn] | (d & Ed & _)].
    - rewrite Hn. simpl. destruct (o_description body); try done.
      by rewrite Hn.
    - rewrite Ed, trim_idem, ltb_leb_negb, andb_true_r.
      by destruct (_ <=? _). }
  assert (Hpr : apply_path priority_path (JStr (priority_of body))
                = Some (priority_of body)).
  { unfold apply_path, validators. simpl. by rewrite bool_decide_eq_true_2. }
  assert (Hst : apply_path status_path (JStr (status_of body))
                = Some (status_of body)).
  { unfold apply_path, validators. simpl. by rewrite bool_decide_eq_true_2. }
  split_and!; try done.
  unfold validation_errors, path_errors, object_of, length_violations.
  cbn [o_title o_description o_priority o_status].
  rewrite Ht, Hde, Hpr, Hst.
  destruct (overlong 200 _), (overlong 1000 _); done.
Qed.

Lemma length_violations_nil body :
  length_violations body = [] ↔
  overlong 200 (o_title body) = false ∧ overlong 1000 (o_description body) = false.
Proof.
  unfold length_violations.
  destruct (overlong 200 _), (overlong 1000 _); naive_solver.
Qed.

Lemma accepted_valid body :
  validateTask body = Next → falsy_or_string (o_description body) = true →
  length_violations body = [] → valid_payload body = true.
Proof.
  intros V Hd [Ht Hde]%length_violations_nil.
  destruct (validateTask_next_inv body V) as (s & E & Hne & Hp & Hs).
  unfold valid_payload. rewrite Hp, Hs, !andb_true_r.
  apply andb_true_iff. split.
  - unfold valid_title. rewrite E in Ht |- *. simpl in Ht.
    rewrite ltb_leb_negb in Ht. apply negb_false_iff in Ht.
    by rewrite Ht, bool_decide_eq_false_2.
  - unfold valid_description, falsy_or_string in *.
    destruct (truthy (o_description body)); [|done]. simpl in *.
    destruct (o_description body); try done. simpl in Hde.
    rewrite ltb_leb_negb in Hde. by apply negb_false_iff in Hde.
Qed.

Lemma valid_accepted body :
  valid_payload body = true →
  validateTask body = Next ∧ falsy_or_string (o_description body) = true
  ∧ length_violations body = [].
Proof.
  intros V. split; [by apply valid_payload_next|].
  unfold valid_payload in V.
  apply andb_prop in V as [[[Ht Hd]%andb_prop _]%andb_prop _].
  destruct (valid_title_inv _ Ht) as (s & E & _ & Hl).
  unfold valid_description in Hd. split.
  - unfold falsy_or_string. destruct (truthy (o_description body)); [|done].
    simpl in *. by destruct (o_description body).
  - apply length_violations_nil. split.
    + rewrite E. simpl. rewrite ltb_leb_negb.
      by rewrite (proj2 (Nat.leb_le _ _) Hl).
    + destruct (o_description body) eqn:Ed; try done. simpl.
      rewrite ltb_leb_negb. apply negb_false_iff.
      destruct (truthy (JStr s0)) eqn:T; simpl in Hd; [done|].
      simpl in T. apply negb_false_iff, bool_decide_eq_true in T. by subst.
Qed.

(** Create, on an accepted payload that breaks a length limit. *)
Lemma post_violation body w :
  validateTask body = Next → falsy_or_string (o_description body) = true →
  length_violations body ≠ [] →
  post_api_tasks body w =
    (validation_error (length_violations body),
     {| tasks := tasks w; next_ObjectId := N.succ (next_ObjectId w);
        clock := clock w; ticks := 2 + ticks w |}).
Proof.
  intros V Hd Hv. unfold post_api_tasks. rewrite V.
  unfold use, asyncHandler, mbind, M_bind.
  rewrite (task_object_accepted body w V Hd).
  destruct (schema_on_accepted body V Hd) as (Et & Ed & Ep & Es & Ev).
  unfold new_Task, save, mbind, M_bind, mret, M_ret.
  cbn -[apply_path title_of description_of priority_of status_of
        validation_errors].
  fold (object_of body). rewrite Et, Ed, Ep, Es, Ev.
  unfold length_violations in Hv.
  destruct (overlong 200 _), (overlong 1000 _); done.
Qed.

(** Update, on an accepted payload that breaks a length limit: the update
    validators reject it before any document is looked up. *)
Lemma put_violation id body w :
  validateTask body = Next → falsy_or_string (o_description body) = true →
  length_violations body ≠ [] →
  put_api_tasks_id id body w
  = (validation_error (length_violations body), tick 1 w).
Proof.
  intros V Hd Hv. unfold put_api_tasks_id. rewrite V.
  unfold use, asyncHandler, mbind, M_bind.
  rewrite (task_object_accepted body w V Hd).
  destruct (schema_on_accepted body V Hd) as (Et & Ed & Ep & Es & Ev).
  unfold findByIdAndUpdate, mbind, M_bind, mret, M_ret.
  cbn -[apply_path title_of description_of priority_of status_of
        validation_errors].
  fold (object_of body). rewrite Et, Ed, Ep, Es, Ev.
  unfold length_violations in Hv.
  destruct (overlong 200 _), (overlong 1000 _); done.
Qed.

(** Both write routes, on a payload that makes [trim] throw. *)
Lemma write_routes_throw id body w :
  (truthy (o_title body) = true ∧ ∀ s, o_title body ≠ JStr s)
  ∨ (validateTask body = Next ∧ falsy_or_string (o_description body) = false) →
  post_api_tasks body w = (internal_error, w)
  ∧ put_api_tasks_id id body w = (internal_error, w).
Proof.
  unfold post_api_tasks, put_api_tasks_id.
  intros [[T N] | [V Hd]].
  - by rewrite (validateTask_throws body T N).
  - rewrite V. unfold use, asyncHandler, mbind, M_bind.
    by rewrite (task_object_throws body w V Hd).
Qed.

Lemma body_cases body :
  (∃ r, validateTask body = Respond r)
  ∨ (truthy (o_title body) = true ∧ ∀ s, o_title body ≠ JStr s)
  ∨ (validateTask body = Next ∧ falsy_or_string (o_description body) = false)
  ∨ (validateTask body = Next ∧ falsy_or_string (o_description body) = true
     ∧ length_violations body ≠ [])
  ∨ valid_payload body = true.
Proof.
  destruct (validateTask body) as [r| |e] eqn:V.
  - left. by exists r.
  - destruct (falsy_or_string (o_description body)) eqn:Hd; [|by auto].
    destruct (decide (length_violations body = [])) as [Hv|Hv].
    + do 4 right. by apply accepted_valid.
    + do 3 right. by left.
  - right. left. unfold validateTask in V.
    destruct (truthy (o_title body)) eqn:T; simpl in V; [|done].
    split; [done|]. intros s E. rewrite E in V. simpl in V.
    repeat case_match; done.
Qed.

(** ** Remove and NotFound (C8) *)

Lemma not_found_missing id w :
  stored id w = None →
  get_api_tasks_id id w = (NotFound, w)
  ∧ delete_api_tasks_id id w = (NotFound, w)
  ∧ (∀ body, valid_payload body = true →
       (put_api_tasks_id id body w).1 = NotFound
       ∧ tasks (put_api_tasks_id id body w).2 = tasks w).
Proof.
  intros Hn. rewrite get_eq, delete_eq, Hn. split_and!; try done.
  intros body V. by rewrite (put_valid id body w V), Hn.
Qed.

(** Validation comes before the lookup: an update of an id that is not in
    the store, with a payload whose title is empty, is answered
    MissingField("title") (status 400), not NotFound (status 404). *)
Example update_missing_id_invalid_payload :
  stored 7 sample_world = None
  ∧ put_api_tasks_id 7 (titled "") sample_world
    = (MissingField_title, sample_world)
  ∧ (put_api_tasks_id 7 (titled "") sample_world).1 ≠ NotFound.
Proof. split_and!; [reflexivity | reflexivity | discriminate]. Qed.

(** The routes on the parameter as it arrives: where it casts, they are
    the routes on the ObjectId. *)
Lemma get_param_cast castObjectId param id w :
  castObjectId param = Some id →
  get_api_tasks_param castObjectId param w = get_api_tasks_id id w.
Proof.
  intros C. unfold get_api_tasks_param, get_api_tasks_id, asyncHandler,
    mbind, M_bind, cast_id.
  by rewrite C.
Qed.

Lemma delete_param_cast castObjectId param id w :
  castObjectId param = Some id →
  delete_api_tasks_param castObjectId param w = delete_api_tasks_id id w.
Proof.
  intros C. unfold delete_api_tasks_param, delete_api_tasks_id, asyncHandler,
    mbind, M_bind, cast_id.
  by rewrite C.
Qed.

Lemma put_param_cast castObjectId param id body w :
  castObjectId param = Some id →
  put_api_tasks_param castObjectId param body w = put_api_tasks_id id body w.
Proof.
  intros C. unfold put_api_tasks_param, put_api_tasks_id,
    findByIdAndUpdate_param.
  by rewrite C.
Qed.

(** Where it does not cast, the CastError is answered "Invalid ID format":
    before any lookup, and for an update after the middleware and the
    [pre] hook, before the update validators. *)
Lemma get_param_malformed castObjectId param w :
  castObjectId param = None →
  get_api_tasks_param castObjectId param w = (invalid_id_format, w).
Proof.
  intros C. unfold get_api_tasks_param, asyncHandler, mbind, M_bind, cast_id.
  by rewrite C.
Qed.

Lemma delete_param_malformed castObjectId param w :
  castObjectId param = None →
  delete_api_tasks_param castObjectId param w = (invalid_id_format, w).
Proof.
  intros C. unfold delete_api_tasks_param, asyncHandler, mbind, M_bind,
    cast_id.
  by rewrite C.
Qed.

Lemma put_param_malformed castObjectId param body w :
  castObjectId param = None →
  put_api_tasks_param castObjectId param body w
  = match validateTask body with
    | Respond r => (r, w)
    | Throw err => (errorHandler err, w)
    | Next =>
        match task_object body w with
        | (inl err, w') => (errorHandler err, w')
        | (inr _, w') => (invalid_id_format, tick 1 w')
        end
    end.
Proof.
  intros C. unfold put_api_tasks_param, use, findByIdAndUpdate_param.
  rewrite C. destruct (validateTask body); try done.
  unfold asyncHandler, mbind, M_bind.
  by destruct (task_object body w) as [[e|o] w'].
Qed.

Lemma put_param_rejected castObjectId param body r w :
  validateTask body = Respond r →
  put_api_tasks_param castObjectId param body w = (r, w).
Proof. intros V. unfold put_api_tasks_param. by apply use_respond. Qed.

(** The routes on the parameter keep the world well formed, as the routes
    on the ObjectId do. *)
Lemma wf_world_param castObjectId param body w :
  wf_world w →
  wf_world (get_api_tasks_param castObjectId param w).2
  ∧ wf_world (put_api_tasks_param castObjectId param body w).2
  ∧ wf_world (delete_api_tasks_param castObjectId param w).2.
Proof.
  intros W. destruct (castObjectId param) as [id|] eqn:C.
  - rewrite (get_param_cast _ _ _ _ C), (put_param_cast _ _ _ _ _ C),
      (delete_param_cast _ _ _ _ C), get_eq.
    split_and!; [done | by apply wf_world_put | by apply wf_world_delete].
  - rewrite (get_param_malformed _ _ _ C), (put_param_malformed _ _ _ _ C),
      (delete_param_malformed _ _ _ C).
    split_and!; [done | | done].
    destruct (validateTask body); [done | | done].
    pose proof (task_object_pure body w) as P.
    destruct (task_object body w) as [[e|o] w0]; simpl in P; subst w0;
      [done|].
    apply (wf_advances w); [done|]. repeat split; simpl; lia.
Qed.

Lemma not_found_distinct :
  invalid_id_format ≠ NotFound ∧ internal_error ≠ NotFound
  ∧ MissingField_title ≠ NotFound ∧ InvalidEnum_priority ≠ NotFound
  ∧ InvalidEnum_status ≠ NotFound
  ∧ (∀ details, validation_error details ≠ NotFound)
  ∧ (∀ t, updated_response t ≠ NotFound).
Proof. split_and!; try discriminate; intros; discriminate. Qed.

(** C8, counterexample: the id [xyz] is the id of no record, stored or
    deleted: it is no ObjectId.  Get, remove and an update with a valid
    payload do not fail with NotFound (status 404) but with "Invalid ID
    format" (status 400). *)
Lemma malformed_id_not_found :
  driver_cast id_malformed = None
  ∧ get_api_tasks_param driver_cast id_malformed sample_world
    = (invalid_id_format, sample_world)
  ∧ delete_api_tasks_param driver_cast id_malformed sample_world
    = (invalid_id_format, sample_world)
  ∧ valid_payload (titled "Write spec") = true
  ∧ (put_api_tasks_param driver_cast id_malformed (titled "Write spec")
       sample_world).1 = invalid_id_format
  ∧ invalid_id_format ≠ NotFound.
Proof. split_and!; [reflexivity.. | discriminate]. Qed.

(** C8, amended: for every id in the store, remove deletes the record and
    returns it, and leaves every other record in place; for every id that
    is an ObjectId and is not in the store, an id just deleted included,
    get and remove fail with NotFound, and so does update when its payload
    is valid; for every id that is no ObjectId, get and remove fail with
    "Invalid ID format", and so does update when its payload is valid; an
    update whose payload the validation middleware rejects fails with that
    rejection whatever the id, and an update whose payload is not valid
    never fails with NotFound.  None of the failures changes the
    collection. *)
Theorem remove_then_not_found castObjectId param w :
  wf_world w →
  (∀ id t, castObjectId param = Some id → stored id w = Some t →
     ∃ w', delete_api_tasks_param castObjectId param w
           = (deleted_response t, w')
       ∧ stored id w' = None
       ∧ (∀ id', id' ≠ id → stored id' w' = stored id' w)
       ∧ get_api_tasks_param castObjectId param w' = (NotFound, w')
       ∧ delete_api_tasks_param castObjectId param w' = (NotFound, w')
       ∧ (∀ body, valid_payload body = true →
            (put_api_tasks_param castObjectId param body w').1 = NotFound
            ∧ tasks (put_api_tasks_param castObjectId param body w').2
              = tasks w'))
  ∧ (∀ id, castObjectId param = Some id → stored id w = None →
       get_api_tasks_param castObjectId param w = (NotFound, w)
       ∧ delete_api_tasks_param castObjectId param w = (NotFound, w)
       ∧ (∀ body, valid_payload body = true →
            (put_api_tasks_param castObjectId param body w).1 = NotFound
            ∧ tasks (put_api_tasks_param castObjectId param body w).2
              = tasks w))
  ∧ (castObjectId param = None →
       get_api_tasks_param castObjectId param w = (invalid_id_format, w)
       ∧ delete_api_tasks_param castObjectId param w = (invalid_id_format, w)
       ∧ (∀ body, valid_payload body = true →
            (put_api_tasks_param castObjectId param body w).1
            = invalid_id_format
            ∧ tasks (put_api_tasks_param castObjectId param body w).2
              = tasks w))
  ∧ (∀ body r, validateTask body = Respond r →
       put_api_tasks_param castObjectId param body w = (r, w)
       ∧ (r = MissingField_title ∨ r = InvalidEnum_priority
          ∨ r = InvalidEnum_status))
  ∧ (∀ body, valid_payload body = false →
       (put_api_tasks_param castObjectId param body w).1 ≠ NotFound
       ∧ tasks (put_api_tasks_param castObjectId param body w).2 = tasks w).
Proof.
  intros W.
  destruct not_found_distinct as (D1 & D2 & D3 & D4 & D5 & D6 & D7).
  split_and!.
  - intros id t C Ht.
    rewrite (delete_param_cast _ _ _ _ C), delete_eq, Ht.
    eexists. split; [reflexivity|].
    assert (Hgone : stored id (set_tasks (deleteOne id (tasks w)) w) = None).
    { unfold stored. simpl. apply find_none_not_elem, ids_deleteOne, W. }
    split; [done|]. split.
    { intros id' Hne. unfold stored. simpl. by apply find_deleteOne_ne. }
    rewrite (get_param_cast _ _ _ _ C), (delete_param_cast _ _ _ _ C).
    destruct (not_found_missing id _ Hgone) as (G & D & U).
    split_and!; [done..|].
    intros body V. rewrite (put_param_cast _ _ _ _ _ C). by apply U.
  - intros id C Hn.
    rewrite (get_param_cast _ _ _ _ C), (delete_param_cast _ _ _ _ C).
    destruct (not_found_missing id _ Hn) as (G & D & U).
    split_and!; [done..|].
    intros body V. rewrite (put_param_cast _ _ _ _ _ C). by apply U.
  - intros C.
    rewrite (get_param_malformed _ _ _ C), (delete_param_malformed _ _ _ C).
    split_and!; [done..|].
    intros body V. rewrite (put_param_malformed _ _ _ _ C).
    rewrite (valid_payload_next body V), (create_object_strings body w V).
    done.
  - intros body r V. split; [by apply put_param_rejected|].
    by apply (validateTask_respond body).
  - intros body V.
    destruct (body_cases body)
      as [[r Vr] | [TN | [[Vn Hd] | [(Vn & Hd & Hv) | Vt]]]];
      [| | | |congruence].
    + rewrite (put_param_rejected _ _ _ r w Vr). simpl. split; [|done].
      destruct (validateTask_respond body r Vr) as [->|[->| ->]]; done.
    + destruct (castObjectId param) as [id|] eqn:C.
      * rewrite (put_param_cast _ _ _ _ _ C).
        by rewrite (proj2 (write_routes_throw id body w (or_introl TN))).
      * rewrite (put_param_malformed _ _ _ _ C).
        by rewrite (validateTask_throws body (proj1 TN) (proj2 TN)).
    + destruct (castObjectId param) as [id|] eqn:C.
      * rewrite (put_param_cast _ _ _ _ _ C).
        by rewrite (proj2 (write_routes_throw id body w
                             (or_intror (conj Vn Hd)))).
      * rewrite (put_param_malformed _ _ _ _ C), Vn.
        by rewrite (task_object_throws body w Vn Hd).
    + destruct (castObjectId param) as [id|] eqn:C.
      * rewrite (put_param_cast _ _ _ _ _ C).
        by rewrite (put_violation id body w Vn Hd Hv).
      * rewrite (put_param_malformed _ _ _ _ C), Vn.
        by rewrite (task_object_accepted body w Vn Hd).
Qed.

(** Removing the second record of the sample world, by the 24 digits of
    its id. *)
Lemma remove_then_not_found_witness :
  driver_cast id_one = Some 1%N
  ∧ stored 1 sample_world = Some (sample_task 1 "medium" "in-progress")
  ∧ ∃ w', delete_api_tasks_param driver_cast id_one sample_world
          = (deleted_response (sample_task 1 "medium" "in-progress"), w')
      ∧ stored 1 w' = None
      ∧ (∀ id', id' ≠ 1%N → stored id' w' = stored id' sample_world)
      ∧ get_api_tasks_param driver_cast id_one w' = (NotFound, w')
      ∧ delete_api_tasks_param driver_cast id_one w' = (NotFound, w')
      ∧ (∀ body, valid_payload body = true →
           (put_api_tasks_param driver_cast id_one body w').1 = NotFound
           ∧ tasks (put_api_tasks_param driver_cast id_one body w').2
             = tasks w').
Proof.
  split; [reflexivity|]. split; [reflexivity|].
  apply (proj1 (remove_then_not_found driver_cast id_one sample_world
                  wf_sample_world) 1%N);
    reflexivity.
Defined.

Example remove_middle_record :
  delete_api_tasks_id 1 sample_world
  = (deleted_response (sample_task 1 "medium" "in-progress"),
     set_tasks [sample_task 0 "high" "completed"; sample_task 2 "high" "pending"]
       sample_world).
Proof. reflexivity. Qed.

(** ** The [$group] stage and the reduce *)

Lemma list_to_map_bump k (g : list (jsstring * nat)) :
  (list_to_map (bump k g) : gmap jsstring nat)
  = <[k := S (default 0 ((list_to_map g : gmap jsstring nat) !! k))]>
      (list_to_map g).
Proof.
  induction g as [|[k' n] g IH]; simpl; [done|].
  case_bool_decide as E.
  - subst k'. simpl. by rewrite lookup_insert_eq, insert_insert_eq.
  - simpl. rewrite IH, lookup_insert_ne by done.
    by apply insert_insert_ne.
Qed.

Lemma keys_bump k (g : list (jsstring * nat)) x :
  x ∈ (bump k g).*1 ↔ x = k ∨ x ∈ g.*1.
Proof.
  induction g as [|[k' n] g IH]; simpl.
  - rewrite list_elem_of_singleton, elem_of_nil. naive_solver.
  - case_bool_decide as E; simpl; rewrite !elem_of_cons, ?IH; naive_solver.
Qed.

Lemma NoDup_bump k (g : list (jsstring * nat)) :
  NoDup g.*1 → NoDup (bump k g).*1.
Proof.
  induction g as [|[k' n] g IH]; simpl.
  - intros _. apply NoDup_singleton.
  - intros [Hk Hg]%NoDup_cons. case_bool_decide as E; simpl.
    + by apply NoDup_cons.
    + apply NoDup_cons. split; [|by apply IH].
      rewrite keys_bump. naive_solver.
Qed.

Lemma sum_bump k (g : list (jsstring * nat)) :
  sum_list (bump k g).*2 = S (sum_list g.*2).
Proof.
  induction g as [|[k' n] g IH]; csimpl; [done|].
  case_bool_decide; csimpl; [done|]. rewrite IH. lia.
Qed.

Section Grouping.

Implicit Types (g : list (jsstring * nat)) (l : list Task).

Lemma group_keys g l x :
  x ∈ (group_from g l).*1 ↔ x ∈ g.*1 ∨ ∃ t, t ∈ l ∧ priority t = x.
Proof.
  unfold group_from. revert g. induction l as [|t l IH]; intros g; simpl.
  - setoid_rewrite elem_of_nil. naive_solver.
  - rewrite IH, keys_bump.
    setoid_rewrite elem_of_cons. naive_solver.
Qed.

Lemma group_NoDup g l : NoDup g.*1 → NoDup (group_from g l).*1.
Proof.
  unfold group_from. revert g.
  induction l as [|t l IH]; intros g Hg; simpl; [done|].
  by apply IH, NoDup_bump.
Qed.

Lemma group_sum g l :
  sum_list (group_from g l).*2 = sum_list g.*2 + length l.
Proof.
  unfold group_from. revert g.
  induction l as [|t l IH]; intros g; simpl; [lia|].
  rewrite IH, sum_bump. lia.
Qed.

Lemma group_lookup g l k :
  (list_to_map (group_from g l) : gmap jsstring nat) !! k
  = if decide (count_priority k l = 0)
    then (list_to_map g : gmap jsstring nat) !! k
    else Some (default 0 ((list_to_map g : gmap jsstring nat) !! k)
               + count_priority k l).
Proof.
  unfold group_from. revert g. induction l as [|t l IH]; intros g; [done|].
  simpl foldl. rewrite IH, list_to_map_bump.
  unfold count_priority. simpl.
  case_bool_decide as E; simpl.
  - subst k. rewrite lookup_insert_eq. simpl.
    destruct (decide _) as [H|H]; unfold count_priority in H; f_equal; lia.
  - rewrite lookup_insert_ne by done. done.
Qed.

End Grouping.

(** The groups of a collection: one per priority present, with its count. *)
Lemma group_by_priority_spec l :
  NoDup (group_by_priority l).*1
  ∧ (∀ k, k ∈ (group_by_priority l).*1 ↔ ∃ t, t ∈ l ∧ priority t = k)
  ∧ sum_list (group_by_priority l).*2 = length l
  ∧ (∀ k, (list_to_map (group_by_priority l) : gmap jsstring nat) !! k
          = if decide (count_priority k l = 0) then None
            else Some (count_priority k l)).
Proof.
  unfold group_by_priority. split_and!.
  - apply group_NoDup. constructor.
  - intros k. rewrite group_keys. simpl. rewrite elem_of_nil. naive_solver.
  - by rewrite group_sum.
  - intros k. rewrite group_lookup. simpl. by rewrite lookup_empty.
Qed.

(** With distinct keys, none of them [__proto__], the reduce builds the map
    of the items, whatever their order. *)
Lemma reduce_priority_list_to_map (gs : list (jsstring * nat)) :
  NoDup gs.*1 → str "__proto__" ∉ gs.*1 →
  reduce_priority gs = list_to_map gs.
Proof.
  unfold reduce_priority.
  enough (H : ∀ m : gmap jsstring nat, NoDup gs.*1 → str "__proto__" ∉ gs.*1 →
            foldl (λ acc item, js_set item.1 item.2 acc) m gs
            = list_to_map gs ∪ m).
  { intros Hn Hp. rewrite (H ∅ Hn Hp). apply (right_id_L ∅ (∪)). }
  induction gs as [|[k n] gs IH]; intros m Hn Hp; simpl.
  - by rewrite (left_id_L ∅ (∪)).
  - apply NoDup_cons in Hn as [Hk Hn].
    apply not_elem_of_cons in Hp as [Hp1 Hp2]. simpl in *.
    unfold js_set at 2. rewrite bool_decide_eq_false_2 by done.
    rewrite (IH _ Hn Hp2).
    rewrite <- insert_union_l. symmetry. apply insert_union_r.
    by apply not_elem_of_list_to_map_1.
Qed.

Lemma reduce_priority_Permutation (gs gs' : list (jsstring * nat)) :
  NoDup gs.*1 → str "__proto__" ∉ gs.*1 → gs' ≡ₚ gs →
  reduce_priority gs' = reduce_priority gs.
Proof.
  intros Hn Hp Hperm.
  rewrite !reduce_priority_list_to_map; try done.
  - by apply list_to_map_proper; [rewrite Hperm|].
  - by rewrite Hperm.
  - by rewrite Hperm.
Qed.

Lemma sum_values_list_to_map (gs : list (jsstring * nat)) :
  NoDup gs.*1 → sum_values (list_to_map gs) = sum_list gs.*2.
Proof.
  unfold sum_values.
  induction gs as [|[k n] gs IH]; simpl.
  - intros _. apply map_fold_empty.
  - intros [Hk Hn]%NoDup_cons.
    rewrite map_fold_insert_L.
    + by rewrite IH.
    + intros. lia.
    + by apply not_elem_of_list_to_map_1.
Qed.

Lemma enumerated_not_proto p : p ∈ priorities → p ≠ str "__proto__".
Proof.
  unfold priorities. rewrite !elem_of_cons, elem_of_nil.
  intros [->|[->|[->|[]]]]; discriminate.
Qed.

(** Every status is one of the three counted. *)
Lemma count_status_partition l :
  (∀ t, t ∈ l → status t ∈ statuses) →
  length l = count_status (str "completed") l
             + count_status (str "pending") l
             + count_status (str "in-progress") l.
Proof.
  unfold count_status.
  induction l as [|t l IH]; intros Hall; [done|].
  assert (IH' := IH (λ x Hx, Hall x (list_elem_of_further _ _ _ Hx))).
  assert (Ht : status t ∈ statuses) by (apply Hall; by left).
  unfold statuses in Ht. rewrite !elem_of_cons, elem_of_nil in Ht.
  simpl.
  destruct Ht as [E | [E | [E | []]]]; rewrite E;
    repeat (case_bool_decide as H; [try discriminate H | try done]);
    simpl; lia.
Qed.

(** ** Statistics (C4, C6) *)

(** C4: when the status and the priority of every stored record lie in
    their enumerations, the statistics satisfy
    [total = completed + pending + inProgress], and the values of the
    [priority] object add up to [total]. *)
Theorem stats_totals w :
  (∀ t, t ∈ tasks w → priority t ∈ priorities ∧ status t ∈ statuses) →
  ∃ data,
    get_api_stats w = ({| statusCode := 200; json := StatsJson data |}, w)
    ∧ total data = length (tasks w)
    ∧ total data = completed data + pending data + inProgress data
    ∧ sum_values (by_priority data) = total data.
Proof.
  intros Hall. rewrite get_api_stats_eq. eexists. split; [reflexivity|].
  simpl. split; [done|]. split.
  - apply count_status_partition. intros t Ht. by apply Hall.
  - destruct (group_by_priority_spec (tasks w)) as (Hn & Hk & Hsum & _).
    rewrite reduce_priority_list_to_map, sum_values_list_to_map; try done.
    rewrite Hk. intros (t & Ht & E).
    by apply (enumerated_not_proto (priority t)); [apply Hall|].
Qed.

Lemma sample_world_enumerated t :
  t ∈ tasks sample_world → priority t ∈ priorities ∧ status t ∈ statuses.
Proof. intros Ht. by destruct (docs_valid _ wf_sample_world t Ht) as (_&_&_&?&?). Qed.

(** The statistics of the sample world. *)
Lemma stats_totals_witness :
  ∃ data,
    get_api_stats sample_world
    = ({| statusCode := 200; json := StatsJson data |}, sample_world)
    ∧ total data = 3
    ∧ total data = completed data + pending data + inProgress data
    ∧ sum_values (by_priority data) = total data.
Proof. apply (stats_totals sample_world), sample_world_enumerated. Defined.

(** The [priority] object built from any collection in which no record has
    the priority [__proto__]. *)
Lemma reduce_group_lookup l p :
  (∀ t, t ∈ l → priority t ≠ str "__proto__") →
  reduce_priority (group_by_priority l) !! p
  = if decide (count_priority p l = 0) then None
    else Some (count_priority p l).
Proof.
  intros Hall.
  destruct (group_by_priority_spec l) as (Hn & Hk & _ & Hl).
  rewrite reduce_priority_list_to_map, Hl; try done.
  rewrite Hk. intros (t & Ht & E). by apply (Hall t).
Qed.

(** A record whose priority is [__proto__], which the schema's enum never
    lets in, would be counted by the [$group] stage and lost by the
    reduce. *)
Example proto_priority_lost :
  let t := {| _id := 0%N; title := str "a"; description := [];
              priority := str "__proto__"; status := str "pending";
              createdAt := 0%Z; updatedAt := 0%Z |} in
  group_by_priority [t] = [(str "__proto__", 1)]
  ∧ reduce_priority (group_by_priority [t]) = ∅.
Proof. by vm_compute. Qed.

(** C6: the [priority] object of the statistics maps every priority that
    occurs in a stored record to the number of records that have it, and
    has no entry for a priority that occurs in none; this does not depend
    on the order in which the [$group] stage returns its items. *)
Theorem priority_mapping w :
  (∀ t, t ∈ tasks w → priority t ∈ priorities) →
  ∃ data,
    get_api_stats w = ({| statusCode := 200; json := StatsJson data |}, w)
    ∧ (∀ p, by_priority data !! p
            = if decide (count_priority p (tasks w) = 0) then None
              else Some (count_priority p (tasks w)))
    ∧ (∀ items, items ≡ₚ group_by_priority (tasks w) →
         reduce_priority items = by_priority data).
Proof.
  intros Hall. rewrite get_api_stats_eq. eexists. split; [reflexivity|].
  simpl.
  assert (Hproto : ∀ t, t ∈ tasks w → priority t ≠ str "__proto__")
    by (intros t Ht; by apply enumerated_not_proto, Hall).
  split.
  - intros p. by apply reduce_group_lookup.
  - intros items Hperm.
    destruct (group_by_priority_spec (tasks w)) as (Hn & Hk & _).
    apply reduce_priority_Permutation; try done.
    rewrite Hk. intros (t & Ht & E). by apply (Hproto t).
Qed.

(** The [priority] object of the sample world. *)
Lemma priority_mapping_witness :
  ∃ data,
    get_api_stats sample_world
    = ({| statusCode := 200; json := StatsJson data |}, sample_world)
    ∧ (∀ p, by_priority data !! p
            = if decide (count_priority p (tasks sample_world) = 0) then None
              else Some (count_priority p (tasks sample_world)))
    ∧ (∀ items, items ≡ₚ group_by_priority (tasks sample_world) →
         reduce_priority items = by_priority data).
Proof.
  apply (priority_mapping sample_world).
  intros t Ht. by destruct (sample_world_enumerated t Ht).
Defined.

(** Two records "high", one "medium", none "low": the object has the keys
    [high] and [medium] only. *)
Example sample_priority_object :
  (by_priority <$> stats sample_world)
  = Some {[ str "high" := 2; str "medium" := 1 ]}.
Proof.
  rewrite stats_eq. reflexivity.
Qed.

(** ** The reference ordering *)

Lemma lex_leb_total a b : lex_leb a b = true ∨ lex_leb b a = true.
Proof.
  revert b. induction a as [|x a IH]; intros [|y b]; simpl; auto.
  destruct (IH b) as [H | H]; rewrite H, ?andb_true_r.
  - destruct (N.ltb_spec x y), (N.eqb_spec x y); simpl; auto.
    right. destruct (N.ltb_spec y x); [done | lia].
  - destruct (N.ltb_spec y x), (N.eqb_spec y x); simpl; auto.
    left. destruct (N.ltb_spec x y); [done | lia].
Qed.

Lemma key_leb_total a b : key_leb a b = true ∨ key_leb b a = true.
Proof.
  destruct a, b; simpl; auto.
  - apply lex_leb_total.
  - destruct (N.leb_spec n n0), (N.leb_spec n0 n); auto. lia.
  - destruct (Z.leb_spec z z0), (Z.leb_spec z0 z); auto. lia.
Qed.

#[global] Instance sorts_before_total name direction :
  Total (sorts_before name direction).
Proof.
  intros a b. unfold sorts_before, sorts_beforeb.
  case_bool_decide;
    [destruct (key_leb_total (field_of name a) (field_of name b))
    |destruct (key_leb_total (field_of name b) (field_of name a))];
    [left|right|left|right]; by apply Is_true_true.
Qed.

(** The reference ordering never fails, permutes what it is given and
    returns it sorted in the direction asked for. *)
Lemma reference_sort_spec name direction l :
  ∃ l', reference_sort name direction l = inr l'
    ∧ l' ≡ₚ l ∧ Sorted (sorts_before name direction) l'.
Proof.
  eexists. split; [reflexivity|]. split.
  - apply merge_sort_Permutation.
  - apply Sorted_merge_sort, _.
Qed.

(** ** Listing (C5, C10) *)

Lemma get_api_tasks_eq store_sort q w :
  get_api_tasks store_sort q w =
    match store_sort (default (str "createdAt") (q_sortBy q))
            (sort_direction (q_order q))
            (List.filter (matches (build_filter q)) (tasks w)) with
    | inr l => (list_response l, w)
    | inl err => (errorHandler err, w)
    end.
Proof.
  unfold get_api_tasks, asyncHandler, mbind, M_bind, find, lift. simpl.
  by destruct (store_sort _ _ _).
Qed.

Lemma constrains_lets_through param value :
  match constrains param with
  | Some s => bool_decide (value = s)
  | None => true
  end = true ↔ lets_through param value.
Proof.
  unfold constrains, lets_through. destruct param as [s|]; [|done].
  destruct (decide (s = [])) as [->|Hn]; [simpl; naive_solver|].
  rewrite (bool_decide_eq_false_2 (s = [])) by done. simpl.
  case_bool_decide as Ha; simpl; [naive_solver|].
  rewrite bool_decide_eq_true. naive_solver.
Qed.

Lemma matches_lets_through q t :
  matches (build_filter q) t = true
  ↔ lets_through (q_status q) (status t)
    ∧ lets_through (q_priority q) (priority t).
Proof.
  unfold matches, build_filter. simpl.
  rewrite andb_true_iff, !constrains_lets_through. done.
Qed.

(** C5, counterexample: the list call [?status=] (the status parameter
    supplied, as the empty string) on a collection of three records.  No
    record has the empty status, so the filter as specified selects none;
    the route returns all three, because [status && ...] takes the empty
    string for no filter. *)
Lemma list_empty_status_returns_all :
  let q := with_status "" no_query in
  (get_api_tasks reference_sort q sample_world).1
  = list_response [sample_task 2 "high" "pending";
                   sample_task 0 "high" "completed";
                   sample_task 1 "medium" "in-progress"]
  ∧ List.filter (matches (filter_as_specified q)) (tasks sample_world) = [].
Proof. by vm_compute. Qed.

Section Listing.

(** Any store whose sort, when it succeeds, returns the documents it was
    given, in some order. *)
Variable store_sort : jsstring → Z → list Task → Exn + list Task.
Hypothesis store_sort_permutes :
  ∀ name direction l l', store_sort name direction l = inr l' → l' ≡ₚ l.

(** C5, amended: the sequence returned holds exactly the records that
    satisfy every filter supplied, where a filter that is absent, empty or
    "all" imposes no constraint, each record as often as it is stored; the
    count returned is the length of the sequence; the collection is not
    changed.  This holds for every store whose sort permutes the records
    found, whenever it can sort by the field asked for. *)
Theorem list_returns_matching q w :
  (∀ l, ∃ l', store_sort (default (str "createdAt") (q_sortBy q))
                (sort_direction (q_order q)) l = inr l') →
  ∃ l,
    get_api_tasks store_sort q w
    = ({| statusCode := 200; json := ListJson l (length l) |}, w)
    ∧ l ≡ₚ List.filter (matches (build_filter q)) (tasks w)
    ∧ (∀ t, t ∈ l ↔
         t ∈ tasks w
         ∧ lets_through (q_status q) (status t)
         ∧ lets_through (q_priority q) (priority t)).
Proof.
  intros Htotal. rewrite get_api_tasks_eq.
  destruct (Htotal (List.filter (matches (build_filter q)) (tasks w)))
    as [l Hl].
  rewrite Hl. exists l. split; [done|].
  pose proof (store_sort_permutes _ _ _ _ Hl) as P. split; [done|].
  intros t. rewrite P, list_elem_of_In, List.filter_In, <- list_elem_of_In.
  by rewrite matches_lets_through.
Qed.

(** C10: the list route hands the store the direction 1 (ascending)
    exactly when the order parameter is the string "asc", and the
    direction -1 (descending) for every other value and when the parameter
    is absent; no value of the parameter is rejected: the answer is the
    store's.  So, with a store that sorts as directed, the sequence
    returned is in ascending order of the sort field when the parameter is
    "asc" and in descending order for every other value. *)
Theorem order_ascending_only_for_asc q w :
  get_api_tasks store_sort q w
  = match store_sort (default (str "createdAt") (q_sortBy q))
            (if bool_decide (q_order q = Some (str "asc")) then 1 else -1)%Z
            (List.filter (matches (build_filter q)) (tasks w)) with
    | inr l => (list_response l, w)
    | inl err => (errorHandler err, w)
    end
  ∧ (sorts_as_directed store_sort →
     ∀ l, (get_api_tasks store_sort q w).1 = list_response l →
       (q_order q = Some (str "asc") →
          ascending (default (str "createdAt") (q_sortBy q)) l)
       ∧ (q_order q ≠ Some (str "asc") →
          descending (default (str "createdAt") (q_sortBy q)) l)).
Proof.
  assert (Hd : sort_direction (q_order q)
               = (if bool_decide (q_order q = Some (str "asc"))
                  then 1 else -1)%Z).
  { unfold sort_direction. destruct (q_order q) as [o|]; simpl.
    - destruct (decide (o = str "asc")) as [->|Hne]; [done|].
      rewrite !bool_decide_eq_false_2; [done|congruence|done].
    - done. }
  split; [by rewrite get_api_tasks_eq, Hd|].
  intros Hs l. rewrite get_api_tasks_eq, Hd.
  destruct (store_sort _ _ _) as [err|l'] eqn:E; simpl.
  { intros Hr. by destruct err. }
  intros [= ->]. split; intros Ho.
  - rewrite bool_decide_eq_true_2 in E by done.
    by apply (proj1 (Hs _ _ _) E).
  - rewrite bool_decide_eq_false_2 in E by done.
    by apply (proj2 (Hs _ _ _) E).
Qed.

End Listing.

(** Listing the completed records, with the reference ordering. *)
Lemma list_returns_matching_witness :
  ∃ l,
    get_api_tasks reference_sort (with_status "completed" no_query) dated_world
    = ({| statusCode := 200; json := ListJson l (length l) |}, dated_world)
    ∧ l ≡ₚ List.filter
             (matches (build_filter (with_status "completed" no_query)))
             (tasks dated_world)
    ∧ (∀ t, t ∈ l ↔
         t ∈ tasks dated_world
         ∧ lets_through (Some (str "completed")) (status t)
         ∧ lets_through None (priority t)).
Proof.
  apply (list_returns_matching reference_sort).
  - intros name direction l l' [= <-]. apply merge_sort_Permutation.
  - intros l. eexists. reflexivity.
Defined.

(** [status=completed] returns the completed record only, [status=all]
    every record, newest first. *)
Example list_completed :
  (get_api_tasks reference_sort (with_status "completed" no_query)
     dated_world).1
  = list_response [dated_task 1 "completed" 2000].
Proof. by vm_compute. Qed.

Example list_all :
  (get_api_tasks reference_sort (with_status "all" no_query) dated_world).1
  = list_response [dated_task 2 "pending" 3000; dated_task 1 "completed" 2000;
                   dated_task 0 "pending" 1000].
Proof. by vm_compute. Qed.

Lemma reference_sort_as_directed : sorts_as_directed reference_sort.
Proof.
  intros name l l'.
  split; intros [= <-]; apply Sorted_merge_sort, _.
Qed.

(** The order "ASC", with the reference ordering: the newest record comes
    first. *)
Lemma order_ascending_only_for_asc_witness :
  sorts_as_directed reference_sort
  ∧ Some (str "ASC") ≠ Some (str "asc")
  ∧ (get_api_tasks reference_sort (with_order (Some (str "ASC")) no_query)
       dated_world).1
    = list_response [dated_task 2 "pending" 3000;
                     dated_task 1 "completed" 2000;
                     dated_task 0 "pending" 1000]
  ∧ descending (str "createdAt")
      [dated_task 2 "pending" 3000; dated_task 1 "completed" 2000;
       dated_task 0 "pending" 1000].
Proof.
  split; [apply reference_sort_as_directed|].
  split; [discriminate|]. split; [by vm_compute|].
  apply (proj2 (order_ascending_only_for_asc reference_sort
                  (with_order (Some (str "ASC")) no_query) dated_world)
           reference_sort_as_directed);
    [by vm_compute | discriminate].
Defined.

(** "asc" lists the oldest record first; "ASC", the empty string and a
    misspelling list the newest first, as "desc" and no parameter do. *)
Example list_ascending :
  (get_api_tasks reference_sort (with_order (Some (str "asc")) no_query)
     dated_world).1
  = list_response [dated_task 0 "pending" 1000; dated_task 1 "completed" 2000;
                   dated_task 2 "pending" 3000].
Proof. by vm_compute. Qed.

Example list_other_orders :
  ∀ o, o ∈ [None; Some (str "desc"); Some (str "ASC"); Some [];
            Some (str "ascending")] →
  (get_api_tasks reference_sort (with_order o no_query) dated_world).1
  = list_response [dated_task 2 "pending" 3000; dated_task 1 "completed" 2000;
                   dated_task 0 "pending" 1000].
Proof.
  intros o Ho. repeat (apply elem_of_cons in Ho as [-> | Ho]; [by vm_compute|]).
  by apply elem_of_nil in Ho.
Qed.

(** ** Every world the server reaches is well formed *)

Lemma wf_world_app store_sort req w :
  wf_world w → wf_world (app store_sort req w).2.
Proof.
  intros W. destruct req as [q|id|body|id body|id|]; unfold app.
  - rewrite get_api_tasks_eq. by destruct (store_sort _ _ _).
  - by rewrite get_eq.
  - by apply wf_world_post.
  - by apply wf_world_put.
  - by apply wf_world_delete.
  - by rewrite get_api_stats_eq.
Qed.

Lemma wf_world_serve store_sort reqs w :
  wf_world w → wf_world (serve store_sort reqs w).
Proof.
  revert w. induction reqs as [|req reqs IH]; intros w W; simpl; [done|].
  by apply IH, wf_world_app.
Qed.

(** Starting from an empty collection, under a clock that does not run
    backwards, whatever the requests. *)
Lemma wf_world_reachable store_sort clock reqs :
  (∀ i j, i ≤ j → (clock i ≤ clock j)%Z) →
  wf_world (serve store_sort reqs (empty_world clock)).
Proof. intros Hm. by apply wf_world_serve, wf_empty. Qed.

(** * Further properties *)

(** ** Schema violations and thrown errors (X1, X2, X3) *)

Lemma length_violations_length body :
  length (length_violations body) = limits_broken body.
Proof.
  unfold length_violations, limits_broken.
  by destruct (overlong 200 _), (overlong 1000 _).
Qed.

Lemma limits_broken_pos body :
  0 < limits_broken body ↔ length_violations body ≠ [].
Proof.
  unfold length_violations, limits_broken.
  destruct (overlong 200 _), (overlong 1000 _); simpl; split; (done || lia).
Qed.








(** ** The answers of the write routes (X4, X5) *)

(** X4: in a well-formed world a create has one of six answers: one of the
    three rejections of the validation middleware, 500 when [trim] throws,
    400 "Validation Error" with one detail for each length limit broken,
    one or two of them (nothing else in the schema fires behind the
    middleware), or 201 with the record created.  Every answer but the
    last leaves the collection as it was. *)
Theorem create_outcomes body w :
  wf_world w →
  ∃ r w',
    post_api_tasks body w = (r, w')
    ∧ (r = MissingField_title ∨ r = InvalidEnum_priority
       ∨ r = InvalidEnum_status ∨ r = internal_error
       ∨ (∃ details, r = validation_error details
                     ∧ length details = limits_broken body
                     ∧ 0 < limits_broken body)
       ∨ ∃ t, r = created_response t ∧ valid_payload body = true)
    ∧ (statusCode r ≠ 201 → tasks w' = tasks w).
Proof.
  intros W. exists (post_api_tasks body w).1, (post_api_tasks body w).2.
  split; [by destruct (post_api_tasks body w)|]. split.
  - destruct (body_cases body) as [[r V] | [TN | [[V Hd] | [(V & Hd & Hv) | V]]]].
    + unfold post_api_tasks. rewrite (use_respond _ r) by done. simpl.
      destruct (validateTask_respond body r V) as [->|[->| ->]]; auto.
    + rewrite (proj1 (write_routes_throw 0%N body w (or_introl TN))). auto.
    + rewrite (proj1 (write_routes_throw 0%N body w (or_intror (conj V Hd)))).
      auto.
    + rewrite (post_violation body w V Hd Hv). simpl.
      do 4 right. left. eexists. split; [done|].
      split; [apply length_violations_length | by apply limits_broken_pos].
    + rewrite (post_valid body w V (wf_fresh w W)). simpl.
      do 5 right. eauto.
  - intros Hr. destruct (post_cases body w) as [[_ A] | (t & Er & _)].
    + apply A.
    + by rewrite Er in Hr.
Qed.

(** On the sample world, with a payload that breaks both length limits. *)
Lemma create_outcomes_witness :
  ∃ r w',
    post_api_tasks overlong_body sample_world = (r, w')
    ∧ (r = MissingField_title ∨ r = InvalidEnum_priority
       ∨ r = InvalidEnum_status ∨ r = internal_error
       ∨ (∃ details, r = validation_error details
                     ∧ length details = limits_broken overlong_body
                     ∧ 0 < limits_broken overlong_body)
       ∨ ∃ t, r = created_response t ∧ valid_payload overlong_body = true)
    ∧ (statusCode r ≠ 201 → tasks w' = tasks sample_world).
Proof. apply (create_outcomes overlong_body sample_world), wf_sample_world. Defined.

(** The update route, case by case. *)
Lemma put_param_cases castObjectId param body w :
  (∃ r, validateTask body = Respond r
        ∧ put_api_tasks_param castObjectId param body w = (r, w))
  ∨ (((truthy (o_title body) = true ∧ ∀ s, o_title body ≠ JStr s)
      ∨ (validateTask body = Next
         ∧ falsy_or_string (o_description body) = false))
     ∧ put_api_tasks_param castObjectId param body w = (internal_error, w))
  ∨ (validateTask body = Next ∧ falsy_or_string (o_description body) = true
     ∧ castObjectId param = None
     ∧ put_api_tasks_param castObjectId param body w
       = (invalid_id_format, tick 1 w))
  ∨ (validateTask body = Next ∧ falsy_or_string (o_description body) = true
     ∧ length_violations body ≠ [] ∧ is_Some (castObjectId param)
     ∧ put_api_tasks_param castObjectId param body w
       = (validation_error (length_violations body), tick 1 w))
  ∨ (∃ id, valid_payload body = true ∧ castObjectId param = Some id
       ∧ stored id w = None
       ∧ put_api_tasks_param castObjectId param body w = (NotFound, tick 1 w))
  ∨ (∃ id old, valid_payload body = true ∧ castObjectId param = Some id
       ∧ stored id w = Some old
       ∧ put_api_tasks_param castObjectId param body w
         = (updated_response (updated body w old),
            set_tasks (replaceOne id (updated body w old) (tasks w))
              (tick 1 w))).
Proof.
  destruct (body_cases body)
    as [[r V] | [TN | [[V Hd] | [(V & Hd & Hv) | V]]]].
  - left. exists r. split; [done|]. by apply put_param_rejected.
  - right. left. split; [by left|].
    destruct (castObjectId param) as [id|] eqn:C.
    + rewrite (put_param_cast _ _ _ _ _ C).
      apply (write_routes_throw id body w (or_introl TN)).
    + rewrite (put_param_malformed _ _ _ _ C).
      by rewrite (validateTask_throws body (proj1 TN) (proj2 TN)).
  - right. left. split; [by right|].
    destruct (castObjectId param) as [id|] eqn:C.
    + rewrite (put_param_cast _ _ _ _ _ C).
      apply (write_routes_throw id body w (or_intror (conj V Hd))).
    + rewrite (put_param_malformed _ _ _ _ C), V.
      by rewrite (task_object_throws body w V Hd).
  - destruct (castObjectId param) as [id|] eqn:C.
    + do 3 right. left. split_and!; [done..|by eexists|].
      rewrite (put_param_cast _ _ _ _ _ C).
      by apply put_violation.
    + do 2 right. left. split_and!; [done..|].
      rewrite (put_param_malformed _ _ _ _ C), V.
      by rewrite (task_object_accepted body w V Hd).
  - destruct (valid_accepted body V) as (Vn & Hd & _).
    destruct (castObjectId param) as [id|] eqn:C.
    + rewrite (put_param_cast _ _ _ _ _ C), (put_valid id body w V).
      destruct (stored id w) as [old|] eqn:Ho.
      * do 5 right. by exists id, old.
      * do 4 right. left. by exists id.
    + do 2 right. left. split_and!; [done..|].
      rewrite (put_param_malformed _ _ _ _ C), Vn.
      by rewrite (task_object_accepted body w Vn Hd).
Qed.

(** X5: an update has one of eight answers: those of a create other than
    201; 400 "Invalid ID format", which it gives exactly when the id is no
    ObjectId and the payload passes the validation middleware without
    making [trim] throw; 404 "Task not found", which it gives exactly for a
    valid payload and an id that is an ObjectId and is not stored; and 200
    with the record updated, which it gives exactly for a valid payload
    and an id that is stored.  "Validation Error" is given only for an id
    that is an ObjectId.  Every answer but the 200 leaves the collection
    as it was. *)
Theorem update_outcomes castObjectId param body w :
  ∃ r w',
    put_api_tasks_param castObjectId param body w = (r, w')
    ∧ (r = MissingField_title ∨ r = InvalidEnum_priority
       ∨ r = InvalidEnum_status ∨ r = internal_error
       ∨ r = invalid_id_format
       ∨ (∃ details, r = validation_error details
                     ∧ length details = limits_broken body
                     ∧ 0 < limits_broken body
                     ∧ is_Some (castObjectId param))
       ∨ r = NotFound
       ∨ ∃ old, r = updated_response (updated body w old))
    ∧ (r = invalid_id_format
       ↔ castObjectId param = None ∧ validateTask body = Next
         ∧ falsy_or_string (o_description body) = true)
    ∧ (r = NotFound
       ↔ valid_payload body = true
         ∧ ∃ id, castObjectId param = Some id ∧ stored id w = None)
    ∧ (∀ t, r = updated_response t
       ↔ valid_payload body = true
         ∧ ∃ id old, castObjectId param = Some id ∧ stored id w = Some old
                     ∧ t = updated body w old)
    ∧ ((∀ t, r ≠ updated_response t) → tasks w' = tasks w).
Proof.
  destruct (put_param_cases castObjectId param body w)
    as [(r & V & E) | [[TN E] | [(V & Hd & C & E) | [(V & Hd & Hv & C & E)
        | [(id & V & C & Ho & E) | (id & old & V & C & Ho & E)]]]]];
    rewrite E; eexists _, _; (split; [reflexivity|]).
  - assert (Hnv : valid_payload body = true → False).
    { intros Hv. apply valid_payload_next in Hv. congruence. }
    destruct (validateTask_respond body r V) as [->|[->| ->]];
      (split_and!;
       [auto 10 | split; [discriminate | intros (_ & ? & _); congruence]
       | split; [discriminate | intros [? _]; by destruct Hnv]
       | intros t; split; [discriminate | intros [? _]; by destruct Hnv]
       | done]).
  - assert (Hnn : validateTask body = Next
                  → falsy_or_string (o_description body) = true → False).
    { intros Vn Hd. destruct TN as [[T N] | [_ Hd']]; [|congruence].
      rewrite (validateTask_throws body T N) in Vn. done. }
    assert (Hnv : valid_payload body = true → False).
    { intros Hv. destruct (valid_accepted body Hv) as (? & ? & _).
      by apply Hnn. }
    split_and!;
      [auto 10 | split; [discriminate | intros (_ & ? & ?); by destruct Hnn]
      | split; [discriminate | intros [? _]; by destruct Hnv]
      | intros t; split; [discriminate | intros [? _]; by destruct Hnv]
      | done].
  - split_and!;
      [auto 10 | done
      | split; [discriminate | intros (_ & ? & ? & _); congruence]
      | intros t; split;
        [discriminate | intros (_ & ? & ? & ? & _); congruence]
      | done].
  - assert (Hnv : valid_payload body = true → False).
    { intros Hv'. by destruct (valid_accepted body Hv') as (_ & _ & ?). }
    split_and!;
      [ do 5 right; left; eexists; split; [done|];
        split_and!;
          [apply length_violations_length | by apply limits_broken_pos | done]
      | split; [discriminate | intros (? & _); destruct C; congruence]
      | split; [discriminate | intros [? _]; by destruct Hnv]
      | intros t; split; [discriminate | intros [? _]; by destruct Hnv]
      | done].
  - split_and!;
      [ auto 10
      | split; [discriminate | intros (? & _); congruence]
      | split; [by eauto | done]
      | intros t; split;
        [discriminate | intros (_ & ? & ? & ? & ? & _); congruence]
      | done].
  - split_and!;
      [ do 7 right; by eexists
      | split; [discriminate | intros (? & _); congruence]
      | split; [discriminate | intros (_ & ? & ? & ?); congruence]
      | intros t; split;
        [ intros Ht; split; [done|]; exists id, old; split_and!; try done;
          by injection Ht
        | intros (_ & id' & old' & ? & ? & ->); congruence ]
      | intros Hr; by destruct (Hr (updated body w old)) ].
Qed.

(** A valid payload sent to the 24 digits of a stored id, of an id that is
    not stored, and to [xyz]: 200, 404 and 400. *)
Example update_three_ids :
  (put_api_tasks_param driver_cast id_one (titled "Write spec")
     sample_world).1
  = updated_response
      {| _id := 1%N; title := str "Write spec"; description := [];
         priority := str "medium"; status := str "pending";
         createdAt := 1000%Z; updatedAt := 1000%Z |}
  ∧ (put_api_tasks_param driver_cast (str "000000000000000000000007")
       (titled "Write spec") sample_world).1 = NotFound
  ∧ (put_api_tasks_param driver_cast id_malformed (titled "Write spec")
       sample_world).1 = invalid_id_format.
Proof. split_and!; reflexivity. Qed.

(** ** Reads and round trips (X6, X7, X8) *)

(** X6: the three GET routes are safe: whatever they answer, listing,
    reading one record and computing the statistics leave the collection,
    the id generator and the clock exactly as they were, for every store
    sort, also one that fails. *)
Theorem get_routes_read_only store_sort q id w :
  (get_api_tasks store_sort q w).2 = w
  ∧ (get_api_tasks_id id w).2 = w
  ∧ (get_api_stats w).2 = w.
Proof.
  rewrite get_api_tasks_eq, get_eq, get_api_stats_eq. split_and!; try done.
  by destruct (store_sort _ _ _).
Qed.

Lemma stored_app_new id l t :
  id ∉ (_id <$> l) → _id t = id →
  List.find (has_id id) (l ++ [t]) = Some t.
Proof.
  intros Hn Hid. rewrite find_app_missing by (by apply find_none_not_elem).
  simpl. unfold has_id. by rewrite bool_decide_eq_true_2.
Qed.

Lemma stored_app_other id l t :
  _id t ≠ id →
  List.find (has_id id) (l ++ [t]) = List.find (has_id id) l.
Proof.
  intros Hne. induction l as [|x l IH]; simpl.
  - unfold has_id. by rewrite bool_decide_eq_false_2.
  - by destruct (has_id id x).
Qed.

Lemma deleteOne_app_new id l t :
  id ∉ (_id <$> l) → _id t = id → deleteOne id (l ++ [t]) = l.
Proof.
  intros Hn Hid. induction l as [|x l IH]; simpl.
  - unfold has_id. by rewrite bool_decide_eq_true_2.
  - apply not_elem_of_cons in Hn as [Hx Hn]. unfold has_id at 1.
    rewrite bool_decide_eq_false_2 by done. by rewrite IH.
Qed.

(** X7: create then get is a round trip: after a successful create, reading
    the id of the record returned gives 200 with that very record, and
    reading any other id gives what it gave before the create. *)
Theorem create_then_get body w :
  wf_world w → valid_payload body = true →
  ∃ t w',
    post_api_tasks body w = (created_response t, w')
    ∧ get_api_tasks_id (_id t) w' = (ok t None, w')
    ∧ (∀ id, id ≠ _id t →
         (get_api_tasks_id id w').1 = (get_api_tasks_id id w).1).
Proof.
  intros W V. eexists _, _.
  split; [apply (post_valid body w V), wf_fresh, W|].
  rewrite get_eq. unfold stored. simpl. split.
  - by rewrite (stored_app_new _ _ _ (wf_fresh w W)).
  - intros id Hne. rewrite !get_eq. unfold stored. simpl.
    by rewrite stored_app_other.
Qed.

Lemma create_then_get_witness :
  ∃ t w',
    post_api_tasks (titled "Write spec") sample_world = (created_response t, w')
    ∧ get_api_tasks_id (_id t) w' = (ok t None, w')
    ∧ (∀ id, id ≠ _id t →
         (get_api_tasks_id id w').1 = (get_api_tasks_id id sample_world).1).
Proof.
  apply (create_then_get (titled "Write spec") sample_world);
    [apply wf_sample_world | reflexivity].
Defined.

(** X8: create then remove is a round trip on the collection: removing the
    record a successful create returned answers 200 with that record and
    leaves the collection exactly as it was before the create, in the same
    order. *)
Theorem create_then_remove body w :
  wf_world w → valid_payload body = true →
  ∃ t w',
    post_api_tasks body w = (created_response t, w')
    ∧ (delete_api_tasks_id (_id t) w').1 = deleted_response t
    ∧ tasks (delete_api_tasks_id (_id t) w').2 = tasks w.
Proof.
  intros W V. eexists _, _.
  split; [apply (post_valid body w V), wf_fresh, W|].
  rewrite delete_eq. unfold stored. simpl.
  rewrite (stored_app_new _ _ _ (wf_fresh w W)) by done. simpl.
  split; [done|]. apply deleteOne_app_new; [by apply wf_fresh | done].
Qed.

Lemma create_then_remove_witness :
  ∃ t w',
    post_api_tasks (titled "Write spec") sample_world = (created_response t, w')
    ∧ (delete_api_tasks_id (_id t) w').1 = deleted_response t
    ∧ tasks (delete_api_tasks_id (_id t) w').2 = tasks sample_world.
Proof.
  apply (create_then_remove (titled "Write spec") sample_world);
    [apply wf_sample_world | reflexivity].
Defined.

(** ** Statistics and the other routes (X9, X10, X11) *)

Lemma count_priority_app p l t :
  count_priority p (l ++ [t])
  = count_priority p l + (if bool_decide (priority t = p) then 1 else 0).
Proof.
  unfold count_priority. rewrite List.filter_app, length_app. simpl.
  by case_bool_decide.
Qed.

Lemma count_status_app s l t :
  count_status s (l ++ [t])
  = count_status s l + (if bool_decide (status t = s) then 1 else 0).
Proof.
  unfold count_status. rewrite List.filter_app, length_app. simpl.
  by case_bool_decide.
Qed.

Lemma count_priority_zero p l :
  count_priority p l = 0 ↔ ∀ t, t ∈ l → priority t ≠ p.
Proof.
  unfold count_priority. induction l as [|x l IH]; simpl.
  - split; [|done]. intros _ t Ht. by apply elem_of_nil in Ht.
  - case_bool_decide as E; simpl.
    + split; [done|]. intros H. destruct (H x); [by left | done].
    + rewrite IH. setoid_rewrite elem_of_cons. naive_solver.
Qed.

Lemma wf_no_proto w t : wf_world w → t ∈ tasks w → priority t ≠ str "__proto__".
Proof.
  intros W Ht. apply enumerated_not_proto.
  by destruct (docs_valid w W t Ht) as (_ & _ & _ & ? & _).
Qed.

(** X9: a successful create raises the total of the statistics by one, the
    count of the new record's priority by one, and exactly one of the three
    status counts by one, the one of the new record's status; the counts of
    all other priorities stay as they were. *)
Theorem create_raises_counts body w :
  wf_world w → valid_payload body = true →
  ∃ t w' before after,
    post_api_tasks body w = (created_response t, w')
    ∧ stats w = Some before ∧ stats w' = Some after
    ∧ total after = S (total before)
    ∧ by_priority after !! priority t
      = Some (S (count_priority (priority t) (tasks w)))
    ∧ (∀ p, p ≠ priority t → by_priority after !! p = by_priority before !! p)
    ∧ completed after
      = completed before
        + (if bool_decide (status t = str "completed") then 1 else 0)
    ∧ pending after
      = pending before
        + (if bool_decide (status t = str "pending") then 1 else 0)
    ∧ inProgress after
      = inProgress before
        + (if bool_decide (status t = str "in-progress") then 1 else 0)
    ∧ status t ∈ statuses.
Proof.
  intros W V.
  pose proof (wf_world_post body w W) as W'.
  rewrite (post_valid body w V (wf_fresh w W)) in W'. simpl in W'.
  eexists _, _, _, _.
  split; [apply (post_valid body w V), wf_fresh, W|].
  split; [apply stats_eq|]. split; [apply stats_eq|].
  cbn [total completed pending inProgress by_priority tasks].
  set (t := created body w) in *.
  assert (Ht : t ∈ tasks w ++ [t]) by (apply elem_of_app; right; by left).
  assert (Hold : ∀ x, x ∈ tasks w → priority x ≠ str "__proto__")
    by (intros x Hx; by apply (wf_no_proto w)).
  assert (Hnew : ∀ x, x ∈ tasks w ++ [t] → priority x ≠ str "__proto__")
    by (intros x Hx; by apply (wf_no_proto _ x W')).
  split_and!.
  - rewrite length_app. simpl. lia.
  - rewrite (reduce_group_lookup _ _ Hnew).
    rewrite count_priority_app, bool_decide_eq_true_2 by done.
    destruct (decide _) as [H|H]; [lia|]. f_equal. lia.
  - intros p Hp.
    rewrite (reduce_group_lookup _ _ Hnew), (reduce_group_lookup _ _ Hold).
    by rewrite count_priority_app, bool_decide_eq_false_2, Nat.add_0_r.
  - apply count_status_app.
  - apply count_status_app.
  - apply count_status_app.
  - by destruct (docs_valid _ W' t Ht) as (_ & _ & _ & _ & ?).
Qed.

Lemma create_raises_counts_witness :
  ∃ t w' before after,
    post_api_tasks (titled "Write spec") sample_world = (created_response t, w')
    ∧ stats sample_world = Some before ∧ stats w' = Some after
    ∧ total after = S (total before)
    ∧ by_priority after !! priority t
      = Some (S (count_priority (priority t) (tasks sample_world)))
    ∧ (∀ p, p ≠ priority t → by_priority after !! p = by_priority before !! p)
    ∧ completed after
      = completed before
        + (if bool_decide (status t = str "completed") then 1 else 0)
    ∧ pending after
      = pending before
        + (if bool_decide (status t = str "pending") then 1 else 0)
    ∧ inProgress after
      = inProgress before
        + (if bool_decide (status t = str "in-progress") then 1 else 0)
    ∧ status t ∈ statuses.
Proof.
  apply (create_raises_counts (titled "Write spec") sample_world);
    [apply wf_sample_world | reflexivity].
Defined.

Section ListAndStats.

Variable store_sort : jsstring → Z → list Task → Exn + list Task.
Hypothesis store_sort_permutes :
  ∀ name direction l l', store_sort name direction l = inr l' → l' ≡ₚ l.
Hypothesis store_sorts_by_date :
  ∀ l, ∃ l', store_sort (str "createdAt") (-1)%Z l = inr l'.

Lemma listed_count_status s w :
  s ≠ [] → s ≠ str "all" →
  listed_count
    (get_api_tasks store_sort
       {| q_status := Some s; q_priority := None;
          q_sortBy := None; q_order := None |} w).1
  = Some (count_status s (tasks w)).
Proof.
  intros Hn Ha. rewrite get_api_tasks_eq. simpl.
  unfold build_filter, constrains. simpl.
  rewrite !bool_decide_eq_false_2 by done. simpl.
  fold (status_is s). rewrite filter_status_is.
  destruct (store_sorts_by_date
              (List.filter (λ t, bool_decide (status t = s)) (tasks w)))
    as [l Hl].
  change (sort_direction None) with (-1)%Z. rewrite Hl. simpl.
  unfold listed_count. simpl. f_equal. unfold count_status.
  by rewrite (store_sort_permutes _ _ _ _ Hl).
Qed.

(** X10: the list route and the statistics agree: the count of the
    unfiltered list is the statistics' total, and the counts of the lists
    filtered by status "completed", "pending" and "in-progress" are the
    statistics' [completed], [pending] and [inProgress]; for every store
    whose sort permutes what it is given and can sort by creation date. *)
Theorem list_counts_match_stats w :
  ∃ data,
    stats w = Some data
    ∧ listed_count (get_api_tasks store_sort no_query w).1 = Some (total data)
    ∧ listed_count
        (get_api_tasks store_sort (with_status "completed" no_query) w).1
      = Some (completed data)
    ∧ listed_count
        (get_api_tasks store_sort (with_status "pending" no_query) w).1
      = Some (pending data)
    ∧ listed_count
        (get_api_tasks store_sort (with_status "in-progress" no_query) w).1
      = Some (inProgress data).
Proof.
  eexists. split; [apply stats_eq|].
  cbn [total completed pending inProgress].
  split_and!.
  - rewrite get_api_tasks_eq. simpl.
    change (build_filter no_query) with no_filter. rewrite filter_no_filter.
    destruct (store_sorts_by_date (tasks w)) as [l Hl].
    change (sort_direction None) with (-1)%Z. rewrite Hl. simpl.
    unfold listed_count. simpl. f_equal.
    by rewrite (store_sort_permutes _ _ _ _ Hl).
  - by apply listed_count_status.
  - by apply listed_count_status.
  - by apply listed_count_status.
Qed.

End ListAndStats.

(** With the reference ordering, on the sample world. *)
Lemma list_counts_match_stats_witness :
  ∃ data,
    stats sample_world = Some data
    ∧ listed_count (get_api_tasks reference_sort no_query sample_world).1
      = Some (total data)
    ∧ listed_count
        (get_api_tasks reference_sort (with_status "completed" no_query)
           sample_world).1
      = Some (completed data)
    ∧ listed_count
        (get_api_tasks reference_sort (with_status "pending" no_query)
           sample_world).1
      = Some (pending data)
    ∧ listed_count
        (get_api_tasks reference_sort (with_status "in-progress" no_query)
           sample_world).1
      = Some (inProgress data).
Proof.
  apply (list_counts_match_stats reference_sort).
  - intros name direction l l' [= <-]. apply merge_sort_Permutation.
  - intros l. eexists. reflexivity.
Defined.

(** X11: when every stored priority is enumerated, the [priority] object
    of the statistics has no key other than low, medium and high and no
    value 0, and it is the empty object exactly when the collection is
    empty. *)
Theorem priority_object_keys w :
  (∀ t, t ∈ tasks w → priority t ∈ priorities) →
  ∃ data,
    stats w = Some data
    ∧ (∀ p n, by_priority data !! p = Some n → p ∈ priorities ∧ 0 < n)
    ∧ (by_priority data = ∅ ↔ tasks w = []).
Proof.
  intros Hall. eexists. split; [apply stats_eq|]. cbn [by_priority].
  assert (Hproto : ∀ t, t ∈ tasks w → priority t ≠ str "__proto__")
    by (intros t Ht; by apply enumerated_not_proto, Hall).
  split.
  - intros p n. rewrite reduce_group_lookup by done.
    destruct (decide _) as [H0|H0]; [done|]. intros [= <-].
    split; [|lia].
    destruct (decide (p ∈ priorities)) as [|Hp]; [done|].
    destruct H0. apply count_priority_zero. intros t Ht <-. by apply Hp, Hall.
  - split.
    + intros He. destruct (tasks w) as [|t l] eqn:El; [done|].
      assert (Hl : reduce_priority (group_by_priority (t :: l)) !! priority t
                   = None) by (by rewrite He, lookup_empty).
      rewrite reduce_group_lookup in Hl by done.
      destruct (decide _) as [H0|H0]; [|done].
      rewrite count_priority_zero in H0. destruct (H0 t); [by left | done].
    + by intros ->.
Qed.

Lemma priority_object_keys_witness :
  ∃ data,
    stats sample_world = Some data
    ∧ (∀ p n, by_priority data !! p = Some n → p ∈ priorities ∧ 0 < n)
    ∧ (by_priority data = ∅ ↔ tasks sample_world = []).
Proof.
  apply (priority_object_keys sample_world).
  intros t Ht. by destruct (sample_world_enumerated t Ht).
Defined.

(** ** Invariants of the running server (X12, X13, X14) *)

(** X12: whatever requests the server has answered since the collection
    was empty, under a clock that does not run backwards, the stored
    records have pairwise distinct ids, and each of them has a title that
    is not empty and at most 200 code units long, a description of at most
    1000, an enumerated priority and status, and [createdAt ≤ updatedAt]. *)
Theorem reachable_records_valid store_sort clock reqs :
  (∀ i j, i ≤ j → (clock i ≤ clock j)%Z) →
  NoDup (_id <$> tasks (serve store_sort reqs (empty_world clock)))
  ∧ (∀ t, t ∈ tasks (serve store_sort reqs (empty_world clock)) →
       title t ≠ [] ∧ length (title t) ≤ 200
       ∧ length (description t) ≤ 1000
       ∧ priority t ∈ priorities ∧ status t ∈ statuses
       ∧ (createdAt t ≤ updatedAt t)%Z).
Proof.
  intros Hm.
  pose proof (wf_world_serve store_sort reqs _ (wf_empty clock Hm)) as W.
  split; [apply W|]. intros t Ht.
  destruct (docs_valid _ W t Ht) as (? & ? & ? & ? & ?).
  pose proof (stamps_ordered _ W t Ht). done.
Qed.

(** Two creates, an update of the first record and the removal of the
    second, under the ticking clock. *)
Lemma reachable_records_valid_witness :
  NoDup (_id <$> tasks (serve reference_sort
           [POST_task (titled " a "); POST_task (titled "b");
            PUT_task 0 (titled "c"); DELETE_task 1]
           (empty_world ticking_clock)))
  ∧ (∀ t, t ∈ tasks (serve reference_sort
           [POST_task (titled " a "); POST_task (titled "b");
            PUT_task 0 (titled "c"); DELETE_task 1]
           (empty_world ticking_clock)) →
       title t ≠ [] ∧ length (title t) ≤ 200
       ∧ length (description t) ≤ 1000
       ∧ priority t ∈ priorities ∧ status t ∈ statuses
       ∧ (createdAt t ≤ updatedAt t)%Z).
Proof.
  apply (reachable_records_valid reference_sort ticking_clock).
  intros i j Hij. unfold ticking_clock. lia.
Defined.

Lemma apply_path_trimmed p v s :
  trim_setter p = true → apply_path p v = Some s → trimmed s.
Proof.
  unfold apply_path. intros Hp. destruct v; try done. rewrite Hp.
  case_match; [|done]. intros [= <-]. apply trim_idem.
Qed.

Lemma post_keeps_trimmed body w :
  all_trimmed w → all_trimmed (post_api_tasks body w).2.
Proof.
  intros Hw. unfold post_api_tasks, use.
  destruct (validateTask body) as [r| |e]; simpl; try done.
  unfold asyncHandler, mbind, M_bind.
  pose proof (task_object_pure body w) as P.
  destruct (task_object body w) as [[e|obj] w0]; simpl in P; subst w0;
    [done|].
  unfold new_Task, save, mbind, M_bind, mret, M_ret.
  cbn -[apply_path].
  destruct (apply_path title_path (o_title obj)) as [t|] eqn:Et;
  [destruct (apply_path description_path (o_description obj)) as [d|] eqn:Ed;
   [destruct (apply_path priority_path (o_priority obj)) as [p|] eqn:Ep;
    [destruct (apply_path status_path (o_status obj)) as [s|] eqn:Es|]|]|].
  2-5: done.
  unfold mbind, M_bind, insertOne. cbn -[apply_path].
  case_bool_decide as F; [done|]. simpl.
  intros x [Hx | ->%list_elem_of_singleton]%elem_of_app; [by apply Hw|].
  simpl. split;
    [apply (apply_path_trimmed title_path _ _ eq_refl Et)
    |apply (apply_path_trimmed description_path _ _ eq_refl Ed)].
Qed.

Lemma put_keeps_trimmed id body w :
  all_trimmed w → all_trimmed (put_api_tasks_id id body w).2.
Proof.
  intros Hw. unfold put_api_tasks_id, use.
  destruct (validateTask body) as [r| |e]; simpl; try done.
  unfold asyncHandler, mbind, M_bind.
  pose proof (task_object_pure body w) as P.
  destruct (task_object body w) as [[e|obj] w0]; simpl in P; subst w0;
    [done|].
  unfold findByIdAndUpdate, mbind, M_bind, mret, M_ret.
  cbn -[apply_path].
  destruct (apply_path title_path (o_title obj)) as [t|] eqn:Et;
  [destruct (apply_path description_path (o_description obj)) as [d|] eqn:Ed;
   [destruct (apply_path priority_path (o_priority obj)) as [p|] eqn:Ep;
    [destruct (apply_path status_path (o_status obj)) as [s|] eqn:Es|]|]|].
  2-5: done.
  unfold updateOne. cbn -[apply_path].
  destruct (List.find (has_id id) (tasks w)) as [old|]; simpl; [|done].
  intros x [-> | Hx]%elem_of_replaceOne; [|by apply Hw].
  simpl. split;
    [apply (apply_path_trimmed title_path _ _ eq_refl Et)
    |apply (apply_path_trimmed description_path _ _ eq_refl Ed)].
Qed.

Lemma app_keeps_trimmed store_sort req w :
  all_trimmed w → all_trimmed (app store_sort req w).2.
Proof.
  intros Hw. destruct req as [q|id|body|id body|id|]; unfold app.
  - rewrite get_api_tasks_eq. by destruct (store_sort _ _ _).
  - by rewrite get_eq.
  - by apply post_keeps_trimmed.
  - by apply put_keeps_trimmed.
  - rewrite delete_eq. destruct (stored id w); [|done]. simpl.
    intros x Hx%elem_of_deleteOne. by apply Hw.
  - by rewrite get_api_stats_eq.
Qed.

Lemma serve_keeps_trimmed store_sort reqs w :
  all_trimmed w → all_trimmed (serve store_sort reqs w).
Proof.
  revert w. induction reqs as [|req reqs IH]; intros w Hw; simpl; [done|].
  by apply IH, app_keeps_trimmed.
Qed.

(** X13: whatever requests the server has answered since the collection
    was empty, no stored title or description has white space at either
    end: trimming a stored title or description changes nothing. *)
Theorem reachable_text_trimmed store_sort clock reqs t :
  t ∈ tasks (serve store_sort reqs (empty_world clock)) →
  trim (title t) = title t ∧ trim (description t) = description t.
Proof.
  apply (serve_keeps_trimmed store_sort reqs (empty_world clock)).
  intros x Hx. by apply elem_of_nil in Hx.
Qed.

(** A record created from a padded title and description. *)
Lemma reachable_text_trimmed_witness :
  trim (str "Write spec") = str "Write spec" ∧ trim (str "soon") = str "soon".
Proof.
  apply (reachable_text_trimmed reference_sort frozen_clock
           [POST_task {| o_title := JStr (str "  Write spec ");
                         o_description := JStr (str " soon  ");
                         o_priority := JUndefined; o_status := JUndefined |}]
           {| _id := 0%N; title := str "Write spec"; description := str "soon";
              priority := str "medium"; status := str "pending";
              createdAt := 1000%Z; updatedAt := 1000%Z |}).
  vm_compute. left.
Defined.

Lemma app_keeps_retired store_sort id req w :
  retired id w → retired id (app store_sort req w).2.
Proof.
  intros [Hn Hlt]. destruct req as [q|id'|body|id' body|id'|]; unfold app.
  - rewrite get_api_tasks_eq. by destruct (store_sort _ _ _).
  - by rewrite get_eq.
  - destruct (post_cases body w)
      as [[_ (Et & _ & _ & Hnext)] | (t & _ & Et & Ei & _ & _ & _ & _ & En & _)].
    + split; [by rewrite Et | lia].
    + split; [|lia]. rewrite Et, fmap_app, not_elem_of_app. split; [done|].
      simpl. rewrite list_elem_of_singleton. lia.
  - destruct (put_cases id' body w)
      as [(Et & _ & _ & Hnext) | (old & t & Ho & _ & Et & Ei & _ & _ & _ & En & _)].
    + split; [by rewrite Et | lia].
    + destruct (find_has_id _ _ _ Ho) as [Hid _].
      split; [|lia].
      rewrite Et, (ids_replaceOne id' t (tasks w) old); [done | exact Ho |].
      congruence.
  - rewrite delete_eq. destruct (stored id' w); [|done]. simpl.
    split; [|done].
    intros (x & Ex & Hx%elem_of_deleteOne)%list_elem_of_fmap.
    apply Hn, list_elem_of_fmap. eauto.
  - by rewrite get_api_stats_eq.
Qed.

Lemma serve_keeps_retired store_sort id reqs w :
  retired id w → retired id (serve store_sort reqs w).
Proof.
  revert w. induction reqs as [|req reqs IH]; intros w Hw; simpl; [done|].
  by apply IH, app_keeps_retired.
Qed.

(** X14: the id of a removed record is never given out again: after a
    record of a well-formed world is removed, whatever requests follow,
    no record is stored under its id, and reading it answers 404. *)
Theorem removed_id_never_returns store_sort id w t reqs :
  wf_world w → stored id w = Some t →
  stored id (serve store_sort reqs (delete_api_tasks_id id w).2) = None
  ∧ (get_api_tasks_id id
       (serve store_sort reqs (delete_api_tasks_id id w).2)).1 = NotFound.
Proof.
  intros W Ht.
  assert (Hr : retired id (delete_api_tasks_id id w).2).
  { rewrite delete_eq, Ht. simpl. split.
    - apply ids_deleteOne, W.
    - destruct (find_has_id _ _ _ Ht) as [<- Hin]. by apply W. }
  apply (serve_keeps_retired store_sort id reqs) in Hr as [Hn _].
  assert (Hs : stored id (serve store_sort reqs (delete_api_tasks_id id w).2)
               = None) by (by apply find_none_not_elem).
  split; [done|]. by rewrite get_eq, Hs.
Qed.

(** The second record of the sample world is removed; three creates and
    an update of its id follow. *)
Lemma removed_id_never_returns_witness :
  stored 1
    (serve reference_sort
       [POST_task (titled "a"); POST_task (titled "b");
        PUT_task 1 (titled "c"); POST_task (titled "d")]
       (delete_api_tasks_id 1 sample_world).2) = None
  ∧ (get_api_tasks_id 1
       (serve reference_sort
          [POST_task (titled "a"); POST_task (titled "b");
           PUT_task 1 (titled "c"); POST_task (titled "d")]
          (delete_api_tasks_id 1 sample_world).2)).1 = NotFound.
Proof.
  apply (removed_id_never_returns reference_sort 1 sample_world
           (sample_task 1 "medium" "in-progress"));
    [apply wf_sample_world | reflexivity].
Defined.

(** ** The seeding script (X15, X16) *)

Lemma ids_from_elem x first n :
  x ∈ ids_from first n → (first ≤ x < first + N.of_nat n)%N.
Proof.
  revert first. induction n as [|n IH]; intros first; simpl.
  - by intros ?%elem_of_nil.
  - intros [-> | Hx%IH]%elem_of_cons; lia.
Qed.

Lemma ids_from_NoDup first n : NoDup (ids_from first n).
Proof.
  revert first. induction n as [|n IH]; intros first; simpl; [constructor|].
  apply NoDup_cons. split; [|apply IH].
  intros Hx%ids_from_elem. lia.
Qed.

Lemma world_eq (w w' : World) :
  tasks w = tasks w' → next_ObjectId w = next_ObjectId w' →
  clock w = clock w' → ticks w = ticks w' → w = w'.
Proof. destruct w, w'. simpl. by intros -> -> -> ->. Qed.

(** Building the documents: ids in sequence, two clock readings each. *)
Lemma construct_all_spec docs w :
  ∃ ds,
    construct_all docs w = (inr ds, after_construction (length docs) w)
    ∧ doc_object <$> ds = docs
    ∧ doc_id <$> ds = ids_from (next_ObjectId w) (length docs)
    ∧ Forall (λ d, ∃ k, ticks w ≤ k ∧ k + 2 ≤ 2 * length docs + ticks w
                    ∧ doc_createdAt d = clock w k
                    ∧ doc_updatedAt d = clock w (S k)) ds.
Proof.
  revert w. induction docs as [|o docs IH]; intros w.
  - exists []. split_and!; try done. simpl. f_equal.
    apply world_eq; simpl; try done. lia.
  - destruct (IH {| tasks := tasks w; next_ObjectId := N.succ (next_ObjectId w);
                    clock := clock w; ticks := S (S (ticks w)) |})
      as (ds & E & Ho & Hi & Hk).
    cbn [tasks next_ObjectId clock ticks] in Hi, Hk.
    eexists (_ :: ds).
    split_and!.
    + cbn [construct_all]. unfold new_Task, mbind, M_bind, mret, M_ret.
      cbn [new_ObjectId Date_now tasks next_ObjectId clock ticks].
      unfold mbind, M_bind in E. rewrite E. f_equal.
      apply world_eq; simpl; try done; lia.
    + by rewrite fmap_cons, Ho.
    + by rewrite fmap_cons, Hi.
    + constructor.
      * exists (ticks w). cbn [length doc_createdAt doc_updatedAt].
        split_and!; try done; lia.
      * eapply Forall_impl; [exact Hk|]. cbn [length].
        intros d (k & ? & ? & ? & ?). exists k. split_and!; try done; lia.
Qed.

Lemma validated_as_is d :
  stored_as_is (doc_object d) = true →
  ∃ t, validated d = inr t
       ∧ object_of_task t = doc_object d ∧ _id t = doc_id d
       ∧ createdAt t = doc_createdAt d ∧ updatedAt t = doc_updatedAt d
       ∧ schema_ok t.
Proof.
  unfold stored_as_is, validated.
  destruct (doc_object d) as [vt vd vp vs] eqn:Eo.
  cbn [o_title o_description o_priority o_status].
  destruct vt as [| | | |t| |]; try done.
  destruct vd as [| | | |de| |]; try done.
  destruct vp as [| | | |p| |]; try done.
  destruct vs as [| | | |s| |]; try done.
  intros [[[Ht%bool_decide_eq_true Hd%bool_decide_eq_true]%andb_prop
            Hp%bool_decide_eq_true]%andb_prop Hs%bool_decide_eq_true]%andb_prop.
  rewrite Ht, Hd, Hp, Hs. eexists. split; [done|]. split_and!; try done.
  eapply schema_ok_applied; simpl; eauto.
Qed.

Lemma validate_all_as_is ds :
  forallb stored_as_is (doc_object <$> ds) = true →
  ∃ ts, validate_all ds = inr ts
        ∧ object_of_task <$> ts = doc_object <$> ds
        ∧ _id <$> ts = doc_id <$> ds
        ∧ Forall2 (λ t d, createdAt t = doc_createdAt d
                          ∧ updatedAt t = doc_updatedAt d) ts ds
        ∧ Forall schema_ok ts.
Proof.
  induction ds as [|d ds IH].
  - intros _. exists []. split_and!; try done; constructor.
  - rewrite fmap_cons. cbn [forallb validate_all].
    intros [Hd Hds]%andb_prop.
    destruct (validated_as_is d Hd) as (t & Et & Eo & Ei & Ec & Eu & Hok).
    destruct (IH Hds) as (ts & Ets & Eos & Eis & Hst & Hoks).
    exists (t :: ts). rewrite Et, Ets. split; [done|].
    rewrite !fmap_cons, Eo, Eos, Ei, Eis. split_and!; try done; by constructor.
Qed.

Lemma insert_all_fresh ts w :
  NoDup (_id <$> ts) →
  (∀ x, x ∈ (_id <$> ts) → x ∉ (_id <$> tasks w)) →
  insert_all ts w = (inr ts, set_tasks (tasks w ++ ts) w).
Proof.
  revert w. induction ts as [|t ts IH]; intros w Hn Hf; simpl.
  - unfold mret, M_ret. f_equal. apply world_eq; simpl; try done.
    by rewrite app_nil_r.
  - apply NoDup_cons in Hn as [Ht Hn].
    unfold mbind, M_bind, insertOne.
    rewrite bool_decide_eq_false_2 by (apply Hf; by left).
    fold (insert_all ts). rewrite IH; [| done |].
    + unfold mret, M_ret. simpl. f_equal. apply world_eq; simpl; try done.
      by rewrite <- app_assoc.
    + intros x Hx. simpl. rewrite fmap_app, not_elem_of_app. split.
      * apply Hf. by right.
      * simpl. rewrite list_elem_of_singleton. by intros ->.
Qed.

(** [insertMany] on objects the schema stores as they are, when the ids
    in the collection are older than the generator. *)
Lemma insertMany_as_is docs w :
  forallb stored_as_is docs = true →
  (∀ t, t ∈ tasks w → (_id t < next_ObjectId w)%N) →
  ∃ ts,
    insertMany docs w
    = (inr ts, set_tasks (tasks w ++ ts) (after_construction (length docs) w))
    ∧ object_of_task <$> ts = docs
    ∧ _id <$> ts = ids_from (next_ObjectId w) (length docs)
    ∧ Forall schema_ok ts
    ∧ Forall (λ t, ∃ k, ticks w ≤ k ∧ k + 2 ≤ 2 * length docs + ticks w
                    ∧ createdAt t = clock w k
                    ∧ updatedAt t = clock w (S k)) ts.
Proof.
  intros Hok Hfresh.
  destruct (construct_all_spec docs w) as (ds & Ec & Eo & Ei & Hk).
  rewrite <- Eo in Hok.
  destruct (validate_all_as_is ds Hok) as (ts & Ev & Eot & Eit & Hst & Hoks).
  exists ts. split_and!.
  - unfold insertMany, mbind, M_bind, lift. rewrite Ec, Ev.
    apply (insert_all_fresh ts (after_construction (length docs) w)).
    + rewrite Eit, Ei. apply ids_from_NoDup.
    + intros x. rewrite Eit, Ei. simpl.
      intros Hx%ids_from_elem (t & -> & Ht%Hfresh)%list_elem_of_fmap. lia.
  - by rewrite Eot.
  - by rewrite Eit.
  - done.
  - clear -Hst Hk. induction Hst as [|t d ts ds [Hc Hu] _ IH]; [constructor|].
    apply Forall_cons in Hk as [(k & ? & ? & ? & ?) Hk].
    constructor; [|by apply IH].
    exists k. rewrite Hc, Hu. done.
Qed.

Lemma sampleTasks_as_is : forallb stored_as_is sampleTasks = true.
Proof. by vm_compute. Qed.

(** X15: whatever the collection holds before, the seeding script leaves
    in it exactly the ten sample records, in the order of the script, each
    with the title, description, priority and status written there, under
    ten consecutive new ids. *)
Theorem seed_installs_samples w :
  ∃ ts w',
    seedDatabase w = (inr ts, w')
    ∧ tasks w' = ts
    ∧ object_of_task <$> ts = sampleTasks
    ∧ _id <$> ts = ids_from (next_ObjectId w) 10
    ∧ length ts = 10.
Proof.
  unfold seedDatabase, mbind, M_bind, deleteMany.
  destruct (insertMany_as_is sampleTasks (set_tasks [] w) sampleTasks_as_is)
    as (ts & E & Eo & Ei & _).
  { intros t Ht. by apply elem_of_nil in Ht. }
  exists ts. eexists. split; [exact E|]. split; [done|]. split; [done|].
  split; [done|].
  by rewrite <- (length_fmap object_of_task), Eo.
Qed.

(** X16: under a clock that does not run backwards, the seeding script
    leaves a well-formed world, whatever world it starts from: distinct
    ids older than the generator, records that meet the schema, and time
    stamps with [createdAt ≤ updatedAt] that lie in the past. *)
Theorem seed_well_formed w :
  (∀ i j, i ≤ j → (clock w i ≤ clock w j)%Z) →
  wf_world (seedDatabase w).2.
Proof.
  intros Hm. unfold seedDatabase, mbind, M_bind, deleteMany.
  destruct (insertMany_as_is sampleTasks (set_tasks [] w) sampleTasks_as_is)
    as (ts & E & Eo & Ei & Hok & Hk).
  { intros t Ht. by apply elem_of_nil in Ht. }
  rewrite E. clear E. cbn [tasks next_ObjectId clock ticks set_tasks] in Ei, Hk.
  rewrite Forall_forall in Hok, Hk.
  split;
    cbn [snd tasks next_ObjectId clock ticks set_tasks after_construction];
    rewrite ?app_nil_l.
  - rewrite Ei. apply ids_from_NoDup.
  - intros t Ht.
    assert (Hi : _id t ∈ (_id <$> ts)) by (apply list_elem_of_fmap; eauto).
    rewrite Ei in Hi. apply ids_from_elem in Hi. lia.
  - done.
  - done.
  - intros t Ht. destruct (Hk t Ht) as (k & _ & _ & -> & ->).
    apply Hm. lia.
  - intros t Ht. destruct (Hk t Ht) as (k & _ & Hle & _ & ->).
    apply Hm. lia.
Qed.

(** Seeding the sample world. *)
Lemma seed_well_formed_witness : wf_world (seedDatabase sample_world).2.
Proof. apply (seed_well_formed sample_world). intros i j Hij. reflexivity. Defined.

(** The statistics of a freshly seeded collection. *)
Example seeded_stats :
  stats (seedDatabase (empty_world frozen_clock)).2
  = Some {| total := 10; completed := 2; pending := 5; inProgress := 3;
            by_priority := {[ str "high" := 4; str "medium" := 3;
                              str "low" := 3 ]} |}.
Proof. rewrite stats_eq. reflexivity. Qed.

(** ** The status label of a task card (X17) *)

Lemma replace_first_length x y s : length (replace_first x y s) = length s.
Proof.
  induction s as [|c s IH]; simpl; [done|].
  destruct (c =? x)%N; simpl; by rewrite ?IH.
Qed.

Lemma replace_first_absent x y s : x ∉ s → replace_first x y s = s.
Proof.
  induction s as [|c s IH]; simpl; [done|].
  intros [Hc Hs]%not_elem_of_cons.
  destruct (N.eqb_spec c x); [congruence|]. by rewrite IH.
Qed.

Lemma replace_first_split x y a b :
  x ∉ a → replace_first x y (a ++ x :: b) = a ++ y :: b.
Proof.
  induction a as [|c a IH]; simpl.
  - intros _. by rewrite N.eqb_refl.
  - intros [Hc Ha]%not_elem_of_cons.
    destruct (N.eqb_spec c x); [congruence|]. by rewrite IH.
Qed.

(** X17: the label a task card shows for a status has the length of the
    status; it is the status itself when the status has no hyphen, and
    otherwise the status with its first hyphen, and only that one, turned
    into a space; for the three enumerated statuses the label has no
    hyphen. *)
Theorem status_label_spec s :
  length (status_label s) = length s
  ∧ (45%N ∉ s → status_label s = s)
  ∧ (∀ a b, s = a ++ 45%N :: b → 45%N ∉ a →
       status_label s = a ++ 32%N :: b)
  ∧ (s ∈ statuses → 45%N ∉ status_label s).
Proof.
  unfold status_label. split_and!.
  - apply replace_first_length.
  - apply replace_first_absent.
  - intros a b -> Ha. by apply replace_first_split.
  - unfold statuses. rewrite !elem_of_cons, elem_of_nil.
    intros [-> | [-> | [-> | []]]];
      apply (bool_decide_unpack _); by vm_compute.
Qed.

Example status_label_in_progress :
  status_label (str "in-progress") = str "in progress".
Proof. reflexivity. Qed.

Example status_label_second_hyphen :
  status_label (str "not-yet-started") = str "not yet-started".
Proof. reflexivity. Qed.

(** ** What an update never does (X18) *)

Lemma ids_replaceOne_same id t' l :
  _id t' = id → _id <$> replaceOne id t' l = _id <$> l.
Proof.
  intros Hid. induction l as [|t l IH]; [done|]. cbn [replaceOne].
  destruct (has_id id t) eqn:E; rewrite !fmap_cons.
  - apply bool_decide_eq_true in E. congruence.
  - by rewrite IH.
Qed.

Lemma elem_of_replaceOne_other id t' l x :
  x ∈ l → _id x ≠ id → x ∈ replaceOne id t' l.
Proof.
  intros Hx Hne. induction l as [|t l IH]; [done|]. cbn [replaceOne].
  apply elem_of_cons in Hx as [-> | Hx].
  - unfold has_id. rewrite bool_decide_eq_false_2 by done. by left.
  - destruct (has_id id t); right; [done | by apply IH].
Qed.

(** X18: an update, whatever its payload and id and whatever it answers,
    never adds, removes or reorders records: the sequence of ids in the
    collection is the same afterwards, and every record stored under
    another id is still there, unchanged. *)
Theorem update_keeps_collection_shape id body w :
  _id <$> tasks (put_api_tasks_id id body w).2 = _id <$> tasks w
  ∧ (∀ t, t ∈ tasks w → _id t ≠ id → t ∈ tasks (put_api_tasks_id id body w).2).
Proof.
  destruct (put_cases id body w)
    as [(Et & _) | (old & t & Ho & _ & Et & Ei & _)]; rewrite Et.
  - done.
  - destruct (find_has_id _ _ _ Ho) as [Hid _]. split.
    + apply ids_replaceOne_same. congruence.
    + intros x Hx Hne. by apply elem_of_replaceOne_other.
Qed.
